(** * KeyBlitz training core: SRS engine, queue selector, timer, scorer.

  Shallow embedding of [src/core/srs.js], [src/core/queue.js], the timer
  module and the scoring module, of the input buffer of
  [src/utils/keyparser.js], of the loading of saved progress in
  [src/utils/storage.js] and of the calls the game controller
  ([src/index.js]) makes to them, followed by the properties of the
  specification that concern them and by further properties of the code.

  Conventions of the embedding.
  - JavaScript numbers that hold counters, levels, indices and
    millisecond timestamps are integers ([Z]).  Numbers that hold seconds
    (timer durations, time bonuses), percentages, weights and the random
    draws are exact rationals ([Q]) in [SRS], [Timer], [Scorer] and
    [Queue]: these modules read the arithmetic of the code without its
    rounding.  [Binary64] gives the rounding of the code, and [Scorer64]
    the score as the code computes it, digit for digit.  Where the code
    can divide by zero the IEEE results Infinity and NaN are modelled
    ([JS.num]).
  - A field that may be absent is a [JS.nullable]: [undefined], [null] or
    a value.  The operators [??], [&&], [||], [===] and [typeof] are
    written out on these types.
  - [Date.now()] and [Math.random()] are inputs of the functions that
    call them.
  - Closure variables and [this] fields are an explicit state record; a
    method is a function from the record before the call to its result
    and the record after it.
  - Objects that are passed by reference live in a store ([Queue.heap]);
    allocation extends the store. *)

From Stdlib Require Import ZArith QArith Qround Qminmax Qabs List String Bool Lia Lqa.
Import ListNotations.

Local Open Scope Z_scope.

(* ===================================================================== *)
(** * The fragment of JavaScript the code relies on *)
(* ===================================================================== *)

Module JS.

(** A slot that holds [undefined], [null] or a value of type [A]. *)
Inductive nullable (A : Type) : Type :=
| undefined : nullable A
| null : nullable A
| the (a : A) : nullable A.
Arguments undefined {A}.
Arguments null {A}.
Arguments the {A} a.

(** [x ?? d] *)
Definition nullish_or {A : Type} (x : nullable A) (d : A) : A :=
  match x with
  | the a => a
  | _ => d
  end.

(** Primitive values, references to objects and references to arrays. *)
Inductive value : Type :=
| VUndefined
| VNull
| VBool (b : bool)
| VNum (n : Z)
| VStr (s : string)
| VObject (l : nat)
| VArray (a : nat).




(** ToBoolean. *)
Definition truthy (v : value) : bool :=
  match v with
  | VUndefined | VNull => false
  | VBool b => b
  | VNum n => negb (n =? 0)
  | VStr s => negb (String.eqb s EmptyString)
  | VObject _ | VArray _ => true
  end.

(** [a && b] and [a || b]; [b] is only evaluated when needed, which is
    immaterial for the pure operands used here. *)
Definition and_then (a b : value) : value := if truthy a then b else a.
Definition or_else (a b : value) : value := if truthy a then a else b.

(** A numeric slot read as a value. *)
Definition of_nullable (x : nullable Z) : value :=
  match x with
  | undefined => VUndefined
  | null => VNull
  | the n => VNum n
  end.

(** [x === y] on nullable slots. *)
Definition strict_eq (x y : nullable Z) : bool :=
  match x, y with
  | undefined, undefined => true
  | null, null => true
  | the a, the b => a =? b
  | _, _ => false
  end.

(** [arr[i]] for a numeric index: [undefined] unless [i] is an index of
    the array. *)
Definition index {A : Type} (arr : list A) (i : Z) : nullable A :=
  if i <? 0 then undefined
  else match nth_error arr (Z.to_nat i) with
       | Some a => the a
       | None => undefined
       end.

(** [Math.floor] of a rational. *)
Definition floor (q : Q) : Z := Qfloor q.

(** Numbers of a computation that can leave the finite range: a finite
    value, [Infinity], [-Infinity] or [NaN].  Zero is unsigned; the only
    division by zero in the code has a positive zero as divisor. *)
Inductive num : Type :=
| Fin (q : Q)
| PInf
| NInf
| NaN.

Definition num_neg (x : num) : num :=
  match x with
  | Fin q => Fin (- q)%Q
  | PInf => NInf
  | NInf => PInf
  | NaN => NaN
  end.

Definition num_add (x y : num) : num :=
  match x, y with
  | NaN, _ | _, NaN => NaN
  | PInf, NInf | NInf, PInf => NaN
  | PInf, _ | _, PInf => PInf
  | NInf, _ | _, NInf => NInf
  | Fin a, Fin b => Fin (a + b)%Q
  end.

Definition num_sub (x y : num) : num := num_add x (num_neg y).

(** An infinity times a finite factor. *)
Definition scale_inf (positive : bool) (q : Q) : num :=
  match (q ?= 0)%Q with
  | Eq => NaN
  | Gt => if positive then PInf else NInf
  | Lt => if positive then NInf else PInf
  end.

Definition num_mul (x y : num) : num :=
  match x, y with
  | NaN, _ | _, NaN => NaN
  | Fin a, Fin b => Fin (a * b)%Q
  | Fin a, PInf | PInf, Fin a => scale_inf true a
  | Fin a, NInf | NInf, Fin a => scale_inf false a
  | PInf, PInf | NInf, NInf => PInf
  | PInf, NInf | NInf, PInf => NInf
  end.

(** [1 / d] for an integer [d]. *)
Definition reciprocal (d : Z) : num :=
  if d =? 0 then PInf else Fin (1 / inject_Z d)%Q.

(** [x <= 0] *)
Definition num_le0 (x : num) : bool :=
  match x with
  | Fin q => Qle_bool q 0
  | NInf => true
  | PInf | NaN => false
  end.

(** [x === 0] *)
Definition num_is0 (x : num) : bool :=
  match x with
  | Fin q => Qeq_bool q 0
  | _ => false
  end.

(** [Math.round] of a rational: the nearest integer, halves upwards. *)
Definition round (q : Q) : Z := Qfloor (q + (1 # 2))%Q.

End JS.

Import JS.

(* ===================================================================== *)
(** * The arithmetic of JavaScript numbers: IEEE 754 binary64 *)
(* ===================================================================== *)

Module Binary64.

(** The exponent of the largest power of two that is not above a
    positive rational. *)
Definition ilog2 (q : Q) : Z :=
  let e := Z.log2 (Qnum q) - Z.log2 (Zpos (Qden q)) in
  if Qle_bool (2 ^ e) q then e else e - 1.

(** The nearest integer, and the even one of two that are equally
    near. *)
Definition nearest_even (q : Q) : Z :=
  let below := Qfloor q in
  match (q - inject_Z below ?= 1 # 2)%Q with
  | Lt => below
  | Gt => below + 1
  | Eq => if Z.even below then below else below + 1
  end.

(** The binary64 number nearest to a rational, ties to the even
    significand: 53 significant bits, units no smaller than that of the
    subnormal numbers, and an infinity from [2 ^ 1024] on.  The result
    is in lowest terms. *)
Definition nearest (q : Q) : num :=
  let q := Qred q in
  if Qeq_bool q 0 then Fin 0
  else
    let magnitude := Qabs q in
    let unit := (2 ^ Z.max (ilog2 magnitude - 52) (-1074))%Q in
    let rounded :=
      Qred (inject_Z (nearest_even (magnitude / unit)) * unit) in
    if Qle_bool (2 ^ 1024) rounded then (if Qle_bool 0 q then PInf else NInf)
    else Fin (if Qle_bool 0 q then rounded else Qred (- rounded)).

(** The result of an operation, rounded when it is finite. *)
Definition rounded (x : num) : num :=
  match x with
  | Fin q => nearest q
  | _ => x
  end.

(** The exact quotient; a zero divisor is a positive zero. *)
Definition quotient (x y : num) : num :=
  match x, y with
  | NaN, _ | _, NaN => NaN
  | Fin a, Fin b =>
      if Qeq_bool b 0 then
        match (a ?= 0)%Q with
        | Eq => NaN
        | Gt => PInf
        | Lt => NInf
        end
      else Fin (a / b)
  | Fin _, _ => Fin 0
  | PInf, Fin b => if Qle_bool 0 b then PInf else NInf
  | NInf, Fin b => if Qle_bool 0 b then NInf else PInf
  | _, _ => NaN
  end.

(** [x + y], [x - y], [x * y] and [x / y] on numbers. *)
Definition add (x y : num) : num := rounded (num_add x y).
Definition sub (x y : num) : num := rounded (num_sub x y).
Definition mul (x y : num) : num := rounded (num_mul x y).
Definition div (x y : num) : num := rounded (quotient x y).

(** [Math.floor(x)] *)
Definition floor (x : num) : num :=
  match x with
  | Fin q => Fin (inject_Z (Qfloor q))
  | _ => x
  end.

End Binary64.

(* ===================================================================== *)
(** * SRS engine ([src/core/srs.js]) *)
(* ===================================================================== *)

Module SRS.

Definition SRS_INTERVALS : list Z := [0; 3; 10; 25; 50; 100].
Definition SUCCESSES_TO_ADVANCE : Z := 3.
Definition MAX_LEVEL : Z := 5.

(** A command with its SRS state.  [keys] stands for the fields the
    engine copies without reading. *)
Record command : Type := mkCommand {
  keys : string;
  level : nullable Z;
  successes : nullable Z;
  failures : nullable Z;
  lastSeen : nullable Z;
  nextReview : nullable Z
}.

(** [SRS_INTERVALS[level] ?? 0] *)
Definition interval_of (lvl : nullable Z) : Z :=
  match lvl with
  | the n => nullish_or (index SRS_INTERVALS n) 0
  | _ => 0
  end.

(** [interval * estimatedSecondsPerCommand * 1000] with
    [estimatedSecondsPerCommand = 2.5]; on an integer interval the
    product is the integer [interval * 2500]. *)
Definition millisecondsUntilReview (interval : Z) : Z := interval * 2500.

Definition calculateNextReview (lvl : Z) (currentTime : Z) : Z :=
  if lvl =? 0 then currentTime
  else
    let interval := interval_of (the lvl) in
    currentTime + millisecondsUntilReview interval.

Definition updateCommandState (cmd : command) (isCorrect : bool)
    (currentTime : Z) : command :=
  let now := currentTime in
  let currentLevel := nullish_or (level cmd) 0 in
  let currentSuccesses := nullish_or (successes cmd) 0 in
  let currentFailures := nullish_or (failures cmd) 0 in
  let '(newLevel, newSuccesses, newFailures) :=
    if isCorrect then
      let newSuccesses := currentSuccesses + 1 in
      if (SUCCESSES_TO_ADVANCE <=? newSuccesses) && (currentLevel <? MAX_LEVEL)
      then (currentLevel + 1, 0, currentFailures)
      else (currentLevel, newSuccesses, currentFailures)
    else (0, 0, currentFailures + 1) in
  let nextReview := calculateNextReview newLevel now in
  {| keys := keys cmd;
     level := the newLevel;
     successes := the newSuccesses;
     failures := the newFailures;
     lastSeen := the now;
     nextReview := the nextReview |}.

(** The result is a JavaScript value: [a || b] returns [b] itself when
    [a] is false, and [x && y] returns [x] itself when [x] is falsy.  The
    comparison [currentTime >= command.nextReview] is only evaluated when
    [command.nextReview] is truthy, hence a number. *)
Definition shouldReviewCommand (cmd : command) (commandsSinceLastSeen : Z)
    (currentTime : Z) : value :=
  if strict_eq (level cmd) (the 0) then VBool true
  else
    let interval := interval_of (level cmd) in
    let hasEnoughCommandsPassed := VBool (interval <=? commandsSinceLastSeen) in
    let hasEnoughTimePassed :=
      and_then (of_nullable (nextReview cmd))
               (VBool (match nextReview cmd with
                       | the t => t <=? currentTime
                       | _ => false
                       end)) in
    or_else hasEnoughCommandsPassed hasEnoughTimePassed.

(** Successive calls of [updateCommandState], each on the result of the
    one before, with the given outcomes and times. *)
Fixpoint answer_all (cmd : command) (answers : list (bool * Z)) : command :=
  match answers with
  | [] => cmd
  | (isCorrect, t) :: rest => answer_all (updateCommandState cmd isCorrect t) rest
  end.

(** The review condition as the specification words it: level 0, or
    enough commands since the last review, or a [nextReview] that is set
    and has been reached. *)
Definition due_as_specified (cmd : command) (commandsSinceLastSeen now : Z)
  : Prop :=
  level cmd = the 0 \/
  interval_of (level cmd) <= commandsSinceLastSeen \/
  (exists t, nextReview cmd = the t /\ t <= now).

(** The review condition with the time check of the code:
    [command.nextReview && ...] passes only a [nextReview] that is
    truthy, so the timestamp 0 counts as not set. *)
Definition due_as_computed (cmd : command) (commandsSinceLastSeen now : Z)
  : Prop :=
  level cmd = the 0 \/
  interval_of (level cmd) <= commandsSinceLastSeen \/
  (exists t, nextReview cmd = the t /\ t <> 0 /\ t <= now).

(** The object [SRS_LEVELS], as its entries in order. *)
Definition SRS_LEVELS : list (string * Z) :=
  [("NEW"%string, 0); ("LEARNING"%string, 1); ("FAMILIAR"%string, 2);
   ("CONFIDENT"%string, 3); ("PROFICIENT"%string, 4); ("MASTERED"%string, 5)].

Definition LEVEL_NAMES : list string :=
  ["NEW"; "LEARNING"; "FAMILIAR"; "CONFIDENT"; "PROFICIENT"; "MASTERED"]%string.

(** [LEVEL_NAMES[level] ?? 'UNKNOWN'] *)
Definition getLevelName (lvl : Z) : string :=
  nullish_or (index LEVEL_NAMES lvl) "UNKNOWN"%string.

Definition calculateMastery (cmd : command) : Z :=
  let totalSuccesses := nullish_or (successes cmd) 0 in
  let totalFailures := nullish_or (failures cmd) 0 in
  let totalAttempts := totalSuccesses + totalFailures in
  if totalAttempts =? 0 then 0
  else round ((inject_Z totalSuccesses / inject_Z totalAttempts) * 100)%Q.

(** [initializeCommandState(command)], with the value [now] of
    [Date.now()]. *)
Definition initializeCommandState (cmd : command) (now : Z) : command :=
  {| keys := keys cmd;
     level := the 0;
     successes := the 0;
     failures := the 0;
     lastSeen := null;
     nextReview := the now |}.

(** The number of incorrect answers of a history. *)
Definition incorrect_answers (answers : list (bool * Z)) : Z :=
  Z.of_nat (List.length (filter (fun a => negb (fst a)) answers)).

End SRS.

(* ===================================================================== *)
(** * Countdown timer ([createTimer]) *)
(* ===================================================================== *)

Module Timer.

Local Open Scope Q_scope.

(** The variables closed over by the functions of one timer.
    [intervalId] records whether an interval is scheduled (the handle
    itself is only tested for being non-null).  The callbacks [onTick]
    and [onComplete] belong to the caller; they receive values and are
    taken not to call back into the timer. *)
Record timer : Type := mkTimer {
  timeLimit : Q;
  intervalId : bool;
  startTime : nullable Z;
  remainingTime : Q;
  isRunning : bool;
  isPaused : bool;
  pausedAt : nullable Z;
  elapsedBeforePause : Q
}.

Definition createTimer (limit : Q) : timer :=
  {| timeLimit := limit;
     intervalId := false;
     startTime := null;
     remainingTime := limit;
     isRunning := false;
     isPaused := false;
     pausedAt := null;
     elapsedBeforePause := 0 |}.

(** [(now - startTime) / 1000]; a [null] start time counts as 0. *)
Definition seconds_since (start : nullable Z) (now : Z) : Q :=
  inject_Z (now - nullish_or start 0%Z) / 1000.

(** Each function returns its result and the variables after the call. *)
Definition updateRemaining (now : Z) (t : timer) : Q * timer :=
  if negb (isRunning t) || isPaused t then (remainingTime t, t)
  else
    let elapsed := seconds_since (startTime t) now in
    let remaining := Qmax 0 (timeLimit t - elapsed - elapsedBeforePause t) in
    (remaining,
     {| timeLimit := timeLimit t;
        intervalId := intervalId t;
        startTime := startTime t;
        remainingTime := remaining;
        isRunning := isRunning t;
        isPaused := isPaused t;
        pausedAt := pausedAt t;
        elapsedBeforePause := elapsedBeforePause t |}).

Definition stop (t : timer) : timer :=
  {| timeLimit := timeLimit t;
     intervalId := false;
     startTime := startTime t;
     remainingTime := 0;
     isRunning := false;
     isPaused := false;
     pausedAt := pausedAt t;
     elapsedBeforePause := elapsedBeforePause t |}.

(** [tick]: refresh, report to [onTick], stop on expiry. *)
Definition tick (now : Z) (t : timer) : timer :=
  let '(remaining, t1) := updateRemaining now t in
  if Qle_bool remaining 0 then stop t1 else t1.

(** [start] reads the clock once itself ([now]) and once more in the
    initial tick ([now']). *)
Definition start (now now' : Z) (t : timer) : timer :=
  if isRunning t && negb (isPaused t) then t
  else
    let t1 :=
      if isPaused t then
        {| timeLimit := timeLimit t;
           intervalId := true;
           startTime := the now;
           remainingTime := remainingTime t;
           isRunning := true;
           isPaused := false;
           pausedAt := pausedAt t;
           elapsedBeforePause := elapsedBeforePause t |}
      else
        {| timeLimit := timeLimit t;
           intervalId := true;
           startTime := the now;
           remainingTime := timeLimit t;
           isRunning := true;
           isPaused := false;
           pausedAt := pausedAt t;
           elapsedBeforePause := 0 |} in
    tick now' t1.

Definition pause (now : Z) (t : timer) : timer :=
  if negb (isRunning t) || isPaused t then t
  else
    {| timeLimit := timeLimit t;
       intervalId := false;
       startTime := startTime t;
       remainingTime := remainingTime t;
       isRunning := isRunning t;
       isPaused := true;
       pausedAt := the now;
       elapsedBeforePause :=
         elapsedBeforePause t + seconds_since (startTime t) now |}.

Definition getRemaining (now : Z) (t : timer) : Q * timer :=
  if isPaused t then (remainingTime t, t) else updateRemaining now t.

Definition isActive (t : timer) : bool := isRunning t && negb (isPaused t).

Definition isPausedState (t : timer) : bool := isPaused t.

Definition addTime (seconds : Q) (t : timer) : timer :=
  {| timeLimit := timeLimit t + seconds;
     intervalId := intervalId t;
     startTime := startTime t;
     remainingTime := Qmax 0 (remainingTime t + seconds);
     isRunning := isRunning t;
     isPaused := isPaused t;
     pausedAt := pausedAt t;
     elapsedBeforePause := elapsedBeforePause t |}.

(** What can happen to a timer: a call of one of its methods with the
    clock readings it takes, or the scheduled interval firing. *)
Inductive call : Type :=
| Start (now now' : Z)
| Pause (now : Z)
| Stop
| AddTime (seconds : Q)
| GetRemaining (now : Z)
| IntervalFires (now : Z).

Definition step (t : timer) (c : call) : timer :=
  match c with
  | Start now now' => start now now' t
  | Pause now => pause now t
  | Stop => stop t
  | AddTime seconds => addTime seconds t
  | GetRemaining now => snd (getRemaining now t)
  | IntervalFires now => if intervalId t then tick now t else t
  end.

Definition run (t : timer) (calls : list call) : timer :=
  fold_left step calls t.

(** The seconds added by the [addTime] calls of a history. *)
Fixpoint added (calls : list call) : Q :=
  match calls with
  | [] => 0
  | AddTime seconds :: rest => seconds + added rest
  | _ :: rest => added rest
  end.

(** Calls that neither restart the countdown nor add time. *)
Definition leaves_stopped (c : call) : bool :=
  match c with
  | Start _ _ | AddTime _ => false
  | _ => true
  end.

(** The stored remaining time is never negative. *)
Definition remaining_nonneg (t : timer) : Prop := 0 <= remainingTime t.

(** Base time limits in seconds for the levels 0..5. *)
Definition BASE_TIMES : list Q := [5; 3; 2; 3 # 2; 6 # 5; 1].

(** [getTimeLimit(command)] for the [level] and [complexity] of the
    command.  The clamped level is an index of [BASE_TIMES]. *)
Definition getTimeLimit (level : Z) (complexity : Q) : Q :=
  let level := Z.max 0 (Z.min 5 level) in
  let complexity := Qmax 1 (Qmin 2 complexity) in
  nth (Z.to_nat level) BASE_TIMES 0 * complexity.

Definition getBaseTime (level : Z) : Q :=
  let clampedLevel := Z.max 0 (Z.min 5 level) in
  nth (Z.to_nat clampedLevel) BASE_TIMES 0.

(** What a timer tells its caller: a call of [onTick] with the remaining
    time, or a call of [onComplete]. *)
Inductive notification : Type :=
| OnTick (remaining : Q)
| OnComplete.

(** The callbacks [tick] calls, in order. *)
Definition tick_notifies (now : Z) (t : timer) : list notification :=
  let remaining := fst (updateRemaining now t) in
  OnTick remaining :: (if Qle_bool remaining 0 then [OnComplete] else []).

(** The variables of [start] when it reaches its initial tick. *)
Definition started (now : Z) (t : timer) : timer :=
  if isPaused t then
    {| timeLimit := timeLimit t;
       intervalId := true;
       startTime := the now;
       remainingTime := remainingTime t;
       isRunning := true;
       isPaused := false;
       pausedAt := pausedAt t;
       elapsedBeforePause := elapsedBeforePause t |}
  else
    {| timeLimit := timeLimit t;
       intervalId := true;
       startTime := the now;
       remainingTime := timeLimit t;
       isRunning := true;
       isPaused := false;
       pausedAt := pausedAt t;
       elapsedBeforePause := 0 |}.

(** The callbacks called during one call on the timer.  The callbacks
    are taken not to call the methods of the timer themselves. *)
Definition notifies (t : timer) (c : call) : list notification :=
  match c with
  | Start now now' =>
      if isRunning t && negb (isPaused t) then []
      else tick_notifies now' (started now t)
  | IntervalFires now => if intervalId t then tick_notifies now t else []
  | _ => []
  end.

(** The callbacks called during a history, in order. *)
Fixpoint trace (t : timer) (calls : list call) : list notification :=
  match calls with
  | [] => []
  | c :: rest => notifies t c ++ trace (step t c) rest
  end.

Definition is_complete (n : notification) : bool :=
  match n with
  | OnComplete => true
  | OnTick _ => false
  end.

Definition is_start (c : call) : bool :=
  match c with
  | Start _ _ => true
  | _ => false
  end.

(** An interval is scheduled exactly while the timer is running and not
    paused, and a paused timer is a running one. *)
Definition scheduled_ok (t : timer) : Prop :=
  intervalId t = isActive t /\ (isPaused t && negb (isRunning t))%bool = false.

(** Every [onComplete] of a sequence of callbacks comes directly after an
    [onTick] that reported no time left; [after_last_tick] tells whether
    the callback before the sequence was such an [onTick]. *)
Fixpoint complete_after_last_tick (after_last_tick : bool)
    (events : list notification) : bool :=
  match events with
  | [] => true
  | OnTick remaining :: rest =>
      complete_after_last_tick (Qle_bool remaining 0) rest
  | OnComplete :: rest =>
      after_last_tick && complete_after_last_tick false rest
  end.

(** The callback is no [onTick] that reports a negative time. *)
Definition reports_nonneg (n : notification) : bool :=
  match n with
  | OnTick remaining => Qle_bool 0 remaining
  | OnComplete => true
  end.

Definition completions (events : list notification) : nat :=
  List.length (filter is_complete events).

Definition starts (calls : list call) : nat :=
  List.length (filter is_start calls).

End Timer.

(* ===================================================================== *)
(** * Scoring and combo system *)
(* ===================================================================== *)

Module Scorer.

(** [combo < 0 ? 0 : combo], then [Math.floor(combo / 5) + 1]; on
    integers [Math.floor (a / 5)] is [Z.div]. *)
Definition getComboMultiplier (combo : Z) : Z :=
  let combo := if combo <? 0 then 0 else combo in
  combo / 5 + 1.

Definition calculateScore (timeRemaining maxTime : Q) (level combo : Z) : Z :=
  let timeRemaining :=
    if negb (Qle_bool 0 timeRemaining) then 0%Q else timeRemaining in
  let maxTime := if Qle_bool maxTime 0 then 1%Q else maxTime in
  let level := if level <? 0 then 0 else level in
  let level := if 5 <? level then 5 else level in
  let combo := if combo <? 0 then 0 else combo in
  let basePoints := 100%Q in
  let timeBonus := ((timeRemaining / maxTime) * 50)%Q in
  let levelMultiplier := level + 1 in
  let comboMultiplier := getComboMultiplier combo in
  let score :=
    ((basePoints + timeBonus) * inject_Z levelMultiplier
     * inject_Z comboMultiplier)%Q in
  Qfloor score.

Definition updateCombo (isCorrect : bool) (currentCombo : Z) : Z :=
  let currentCombo := if currentCombo <? 0 then 0 else currentCombo in
  if isCorrect then currentCombo + 1 else 0.

(** The fields of a [SessionScorer]. *)
Record session : Type := mkSession {
  totalScore : Z;
  currentCombo : Z;
  bestCombo : Z;
  correctCount : Z;
  incorrectCount : Z
}.

(** [new SessionScorer()] *)
Definition new_session : session :=
  {| totalScore := 0; currentCombo := 0; bestCombo := 0;
     correctCount := 0; incorrectCount := 0 |}.

(** The object [recordAttempt] returns. *)
Record attempt : Type := mkAttempt {
  score : Z;
  combo : Z;
  total : Z;
  isCorrect : bool
}.

(** [recordAttempt] as a function from the fields before the call to the
    returned object and the fields after it; [correct] is the parameter
    [isCorrect]. *)
Definition recordAttempt (correct : bool) (timeRemaining maxTime : Q)
    (level : Z) (this : session) : attempt * session :=
  let newCombo := updateCombo correct (currentCombo this) in
  let newBest :=
    if bestCombo this <? newCombo then newCombo else bestCombo this in
  if correct then
    let earnedScore := calculateScore timeRemaining maxTime level newCombo in
    let newTotal := totalScore this + earnedScore in
    ({| score := earnedScore; combo := newCombo; total := newTotal;
        isCorrect := true |},
     {| totalScore := newTotal;
        currentCombo := newCombo;
        bestCombo := newBest;
        correctCount := correctCount this + 1;
        incorrectCount := incorrectCount this |})
  else
    ({| score := 0; combo := newCombo; total := totalScore this;
        isCorrect := false |},
     {| totalScore := totalScore this;
        currentCombo := newCombo;
        bestCombo := newBest;
        correctCount := correctCount this;
        incorrectCount := incorrectCount this + 1 |}).

(** The score as the specification words it: the inputs clamped
    ([timeRemaining] to at least 0, a [maxTime] that is not positive
    replaced by 1, [level] into 0..5, [combo] to at least 0), then the
    floor of base plus time bonus, times the level multiplier, times the
    combo multiplier. *)
Definition score_as_specified (timeRemaining maxTime : Q) (level combo : Z)
  : Z :=
  let clampedTimeRemaining := Qmax timeRemaining 0 in
  let clampedMaxTime := if Qle_bool maxTime 0 then 1%Q else maxTime in
  let clampedLevel := Z.min (Z.max level 0) 5 in
  let clampedCombo := Z.max combo 0 in
  Qfloor ((100 + (clampedTimeRemaining / clampedMaxTime) * 50)
          * inject_Z (clampedLevel + 1)
          * inject_Z (clampedCombo / 5 + 1))%Q.

(** The object [getStats] returns. *)
Record stats : Type := mkStats {
  stats_totalScore : Z;
  stats_currentCombo : Z;
  stats_bestCombo : Z;
  stats_correctCount : Z;
  stats_incorrectCount : Z;
  totalAttempts : Z;
  accuracy : Q
}.


Definition reset (this : session) : session :=
  {| totalScore := 0; currentCombo := 0; bestCombo := 0;
     correctCount := 0; incorrectCount := 0 |}.

(** The arguments of one call of [recordAttempt]. *)
Record attempt_args : Type := mkArgs {
  arg_isCorrect : bool;
  arg_timeRemaining : Q;
  arg_maxTime : Q;
  arg_level : Z
}.

(** Successive calls of [recordAttempt] on one [SessionScorer]. *)
Fixpoint record_all (this : session) (attempts : list attempt_args) : session :=
  match attempts with
  | [] => this
  | a :: rest =>
      record_all
        (snd (recordAttempt (arg_isCorrect a) (arg_timeRemaining a)
                            (arg_maxTime a) (arg_level a) this))
        rest
  end.

(** The outcomes of a history have a run of [n] correct attempts in a
    row. *)
Definition has_streak (n : nat) (outcomes : list bool) : Prop :=
  exists before after, outcomes = before ++ repeat true n ++ after.

(** The outcomes end with exactly [n] correct attempts. *)
Definition ends_with_streak (n : nat) (outcomes : list bool) : Prop :=
  exists before,
    outcomes = before ++ repeat true n /\
    (before = [] \/ exists earlier, before = earlier ++ [false]).

(** What the fields of a [SessionScorer] say about the outcomes of the
    attempts recorded so far. *)
Definition session_tracks (this : session) (outcomes : list bool) : Prop :=
  correctCount this = Z.of_nat (count_occ bool_dec outcomes true) /\
  incorrectCount this = Z.of_nat (count_occ bool_dec outcomes false) /\
  100 * correctCount this <= totalScore this /\
  0 <= currentCombo this /\
  ends_with_streak (Z.to_nat (currentCombo this)) outcomes /\
  0 <= bestCombo this /\
  has_streak (Z.to_nat (bestCombo this)) outcomes /\
  (forall n, has_streak n outcomes -> Z.of_nat n <= bestCombo this).

(** The points [handleAnswer] of the game controller awards
    ([src/index.js]): the score at the combo before the answer. *)
Definition handleAnswer_points (isCorrect : bool) (timeRemaining timeLimit : Q)
    (level combo : Z) : Z :=
  if isCorrect then calculateScore timeRemaining timeLimit level combo else 0.

End Scorer.

(** ** The score in the arithmetic of the code *)

(** [Scorer] reads the arithmetic of the scoring module exactly, for the
    properties of order that rounding keeps.  Here every operation of
    [calculateScore] and [getComboMultiplier] is rounded to binary64, as
    the code computes it.  The time arguments are finite numbers, the
    level and the combo integers. *)
Module Scorer64.

Definition getComboMultiplier (combo : Z) : num :=
  let combo := if combo <? 0 then 0 else combo in
  Binary64.add
    (Binary64.floor (Binary64.div (Fin (inject_Z combo)) (Fin 5))) (Fin 1).

Definition calculateScore (timeRemaining maxTime : Q) (level combo : Z) : num :=
  let timeRemaining :=
    if negb (Qle_bool 0 timeRemaining) then 0%Q else timeRemaining in
  let maxTime := if Qle_bool maxTime 0 then 1%Q else maxTime in
  let level := if level <? 0 then 0 else level in
  let level := if 5 <? level then 5 else level in
  let combo := if combo <? 0 then 0 else combo in
  let basePoints := Fin 100 in
  let timeBonus :=
    Binary64.mul (Binary64.div (Fin timeRemaining) (Fin maxTime)) (Fin 50) in
  let levelMultiplier := Binary64.add (Fin (inject_Z level)) (Fin 1) in
  let comboMultiplier := getComboMultiplier combo in
  let score :=
    Binary64.mul
      (Binary64.mul (Binary64.add basePoints timeBonus) levelMultiplier)
      comboMultiplier in
  Binary64.floor score.

(** The score as the specification words it, with its arithmetic read
    as that of binary64 numbers: the inputs clamped, then the floor of
    base plus time bonus, times the level multiplier, times the combo
    multiplier, each operation rounded, in the order written. *)
Definition score_as_specified (timeRemaining maxTime : Q) (level combo : Z)
  : num :=
  let clampedTimeRemaining := Qmax timeRemaining 0 in
  let clampedMaxTime := if Qle_bool maxTime 0 then 1%Q else maxTime in
  let clampedLevel := Z.min (Z.max level 0) 5 in
  let clampedCombo := Z.max combo 0 in
  Binary64.floor
    (Binary64.mul
       (Binary64.mul
          (Binary64.add
             (Fin 100)
             (Binary64.mul
                (Binary64.div (Fin clampedTimeRemaining) (Fin clampedMaxTime))
                (Fin 50)))
          (Binary64.add (Fin (inject_Z clampedLevel)) (Fin 1)))
       (Binary64.add
          (Binary64.floor
             (Binary64.div (Fin (inject_Z clampedCombo)) (Fin 5)))
          (Fin 1))).

End Scorer64.

(* ===================================================================== *)
(** * Command queue ([src/core/queue.js]) *)
(* ===================================================================== *)

Module Queue.

(** The properties of a command object.  The queue reads [keys], [level],
    [nextReview] and [originalIndex]; an absent property is [undefined].
    [level] is an arbitrary value, since the code tests its type.
    [others] holds the remaining properties (successes, failures, concept
    and so on), which the queue only copies. *)
Record command : Type := mkCommand {
  keys : nullable string;
  level : value;
  nextReview : nullable Z;
  originalIndex : nullable Z;
  others : list (string * value)
}.

(** [{}] *)
Definition empty_object : command :=
  {| keys := undefined; level := VUndefined; nextReview := undefined;
     originalIndex := undefined; others := [] |}.

(** The store: command objects and arrays of references to them.  A
    reference is a position in the store; allocation appends. *)
Record heap : Type := mkHeap {
  objects : list command;
  arrays : list (list nat)
}.

Definition read (h : heap) (l : nat) : command := nth l (objects h) empty_object.

Definition alloc (h : heap) (c : command) : nat * heap :=
  (List.length (objects h), {| objects := objects h ++ [c]; arrays := arrays h |}).

(** The elements of [v] when [Array.isArray(v)]. *)
Definition as_array (h : heap) (v : value) : option (list nat) :=
  match v with
  | VArray a => nth_error (arrays h) a
  | _ => None
  end.

Inductive exn : Type :=
| TypeError (message : string).

Inductive result (A : Type) : Type :=
| Throw (e : exn)
| Return (a : A).
Arguments Throw {A} e.
Arguments Return {A} a.

(** [cmd.keys || 'unknown'] *)
Definition keys_or_unknown (cmd : command) : string :=
  match keys cmd with
  | the s => if String.eqb s EmptyString then "unknown"%string else s
  | _ => "unknown"%string
  end.

(** [`Command "${cmd.keys || 'unknown'}" missing level property`] *)
Definition missing_level (cmd : command) : string :=
  ("Command " ++ String (Ascii.ascii_of_nat 34) (keys_or_unknown cmd)
 ++ String (Ascii.ascii_of_nat 34) " missing level property")%string.

(** [commands.map(cmd => ...)] of [getCommandWeights]: the callback runs
    on the elements in order and the first exception ends the call. *)
Fixpoint weights_of (h : heap) (elems : list nat) : result (list num) :=
  match elems with
  | [] => Return []
  | l :: rest =>
    let cmd := read h l in
    match level cmd with
    | VNum n =>
        match weights_of h rest with
        | Return ws => Return (reciprocal (n + 1) :: ws)
        | Throw e => Throw e
        end
    | _ => Throw (TypeError (missing_level cmd))
    end
  end.

Definition getCommandWeights (h : heap) (commands : value) : result (list num) :=
  match as_array h commands with
  | None => Throw (TypeError "commands must be an array")
  | Some elems => weights_of h elems
  end.

(** [{ ...cmd, originalIndex: index }] *)
Definition with_index (cmd : command) (index : nat) : command :=
  {| keys := keys cmd;
     level := level cmd;
     nextReview := nextReview cmd;
     originalIndex := the (Z.of_nat index);
     others := others cmd |}.

(** [commands.map((cmd, index) => ({ ...cmd, originalIndex: index }))],
    from position [index] on: one new object per element. *)
Fixpoint map_with_index (h : heap) (elems : list nat) (index : nat)
  : list nat * heap :=
  match elems with
  | [] => ([], h)
  | l :: rest =>
    let (l', h1) := alloc h (with_index (read h l) index) in
    let (ls, h2) := map_with_index h1 rest (S index) in
    (l' :: ls, h2)
  end.

(** The callback of the due filter. *)
Definition is_due (cmd : command) (now : Z) : bool :=
  match nextReview cmd with
  | undefined | null => true
  | the t => t <=? now
  end.

(** [cmd.level === 0] *)
Definition level_is_0 (cmd : command) : bool :=
  match level cmd with
  | VNum n => n =? 0
  | _ => false
  end.

(** [Math.floor(Math.random() * length)] for the value [rnd] of
    [Math.random()]. *)
Definition random_index (rnd : Q) (len : nat) : Z :=
  floor (rnd * inject_Z (Z.of_nat len)).

(** The loop of the weighted selection over [commandPool] and [weights],
    which have the same length: [None] when it runs to its end. *)
Fixpoint walk (random : num) (pool : list nat) (weights : list num)
  : option nat :=
  match pool, weights with
  | c :: pool', w :: weights' =>
    let random := num_sub random w in
    if num_le0 random then Some c else walk random pool' weights'
  | _, _ => None
  end.

(** Steps 3 and 4 of [selectNextCommand]: the choice from
    [commandPool], with the value [rnd] of [Math.random()]; every path
    draws at most once. *)
Definition select_from_pool (h : heap) (commandPool : list nat) (rnd : Q)
  : result (nullable nat) :=
  let level0Commands := filter (fun l => level_is_0 (read h l)) commandPool in
  match level0Commands with
  | _ :: _ =>
      let randomIndex := random_index rnd (List.length level0Commands) in
      Return (index level0Commands randomIndex)
  | [] =>
      match weights_of h commandPool with
      | Throw e => Throw e
      | Return weights =>
          let totalWeight := fold_left num_add weights (Fin 0) in
          if num_is0 totalWeight then
            let randomIndex := random_index rnd (List.length commandPool) in
            Return (index commandPool randomIndex)
          else
            let random := num_mul (Fin rnd) totalWeight in
            match walk random commandPool weights with
            | Some l => Return (the l)
            | None =>
                Return (index commandPool
                              (Z.of_nat (List.length commandPool) - 1))
            end
      end
  end.

(** [selectNextCommand(commands, currentCommandIndex)], with the value
    [now] of [Date.now()] and the value [rnd] of [Math.random()].  The
    arrays built by [map] and [filter] do not leave the function and are
    lists here; the objects built by [map] are allocated, since one of
    them is returned.  The result is paired with the store after the
    call. *)
Definition selectNextCommand (h : heap) (commands : value)
    (currentCommandIndex : nullable Z) (now : Z) (rnd : Q)
  : result (nullable nat) * heap :=
  let currentCommandIndex :=
    match currentCommandIndex with
    | undefined => null
    | given => given
    end in
  match as_array h commands with
  | None => (Throw (TypeError "commands must be an array"), h)
  | Some [] => (Return null, h)
  | Some elems =>
      let (copies, h') := map_with_index h elems 0 in
      let dueCommands := filter (fun l => is_due (read h' l) now) copies in
      match dueCommands with
      | [] => (Return null, h')
      | _ =>
          let availableCommands :=
            filter (fun l => negb (strict_eq (originalIndex (read h' l))
                                             currentCommandIndex))
                   dueCommands in
          let commandPool :=
            match availableCommands with
            | [] => dueCommands
            | _ => availableCommands
            end in
          (select_from_pool h' commandPool rnd, h')
      end
  end.

(** The array argument is well formed when its elements are objects of
    the store. *)
Definition well_formed (h : heap) (commands : value) : Prop :=
  match as_array h commands with
  | Some elems => Forall (fun l => (l < List.length (objects h))%nat) elems
  | None => True
  end.

(** The command at position [k] of the input array. *)
Definition command_at (h : heap) (elems : list nat) (k : nat) : command :=
  read h (nth k elems 0%nat).

(** The positions of the due commands of the input array, as the
    specification words it: [nextReview] unset or not after [now]. *)
Definition due_positions (h : heap) (elems : list nat) (now : Z) : list nat :=
  filter (fun k => is_due (command_at h elems k) now)
         (seq 0 (List.length elems)).

(** The candidate pool, as the specification words it: the due commands
    without the one at [currentIndex], or all due commands if that
    leaves none. *)
Definition candidate_pool (h : heap) (elems : list nat)
    (currentIndex : nullable Z) (now : Z) : list nat :=
  let due := due_positions h elems now in
  match filter (fun k => negb (strict_eq (the (Z.of_nat k)) currentIndex)) due with
  | [] => due
  | remaining => remaining
  end.

(** The store after the [map] of [selectNextCommand], and the reference
    it allocates for position [k] of the input array. *)
Definition store_after_map (h : heap) (elems : list nat) : heap :=
  snd (map_with_index h elems 0).

Definition copy_ref (h : heap) (k : nat) : nat :=
  (List.length (objects h) + k)%nat.

(** The commands of the candidate pool. *)
Definition pool_commands (h : heap) (elems : list nat)
    (currentIndex : nullable Z) (now : Z) : list command :=
  map (command_at h elems) (candidate_pool h elems currentIndex now).


(** A store for the examples: the commands [dd] (level 0, due), [yy] (no
    level, no [nextReview]) and [cc] (level 2, due at 5000), and the
    array of the three. *)
Definition sample_store : heap :=
  {| objects :=
       [ {| keys := the "dd"%string; level := VNum 0;
            nextReview := the 500; originalIndex := undefined;
            others := [("successes"%string, VNum 2)] |};
         {| keys := the "yy"%string; level := VUndefined;
            nextReview := undefined; originalIndex := undefined;
            others := [] |};
         {| keys := the "cc"%string; level := VNum 2;
            nextReview := the 5000; originalIndex := undefined;
            others := [("successes"%string, VNum 1)] |} ];
     arrays := [[0; 1; 2]%nat] |}.

(** The weight [1 / (level + 1)] of a command whose level is a number,
    as a rational (for levels other than -1). *)
Definition weight (cmd : command) : Q :=
  match level cmd with
  | VNum n => (1 / inject_Z (n + 1))%Q
  | _ => 0%Q
  end.

(** The sum of a list of rationals. *)
Definition total (ws : list Q) : Q := fold_right Qplus 0%Q ws.

(** The level is a number, and at least [lo]. *)
Definition level_at_least (lo : Z) (cmd : command) : bool :=
  match level cmd with
  | VNum n => lo <=? n
  | _ => false
  end.

(** A second store for the examples: the commands [j] (level 1, due),
    [k] (level 3, no [nextReview]) and [gg] (level 2, due at 9000), and
    the array of the three. *)
Definition graded_store : heap :=
  {| objects :=
       [ {| keys := the "j"%string; level := VNum 1;
            nextReview := the 100; originalIndex := undefined;
            others := [("successes"%string, VNum 0)] |};
         {| keys := the "k"%string; level := VNum 3;
            nextReview := undefined; originalIndex := undefined;
            others := [] |};
         {| keys := the "gg"%string; level := VNum 2;
            nextReview := the 9000; originalIndex := undefined;
            others := [("failures"%string, VNum 1)] |} ];
     arrays := [[0; 1; 2]%nat] |}.


(** The call of [selectNextCommand] in [selectNext] of the game
    controller ([src/index.js]): the current index is always 0. *)
Definition selectNext_call (h : heap) (commandsWithState : value)
    (now : Z) (rnd : Q) : result (nullable nat) * heap :=
  selectNextCommand h commandsWithState (the 0) now rnd.

End Queue.

(* ===================================================================== *)
(** * src/utils/keyparser.js: the input buffer *)
(* ===================================================================== *)

Module KeyParser.

Local Open Scope string_scope.

(** The fields of an [InputBuffer].  [timer] tells whether a time-out
    set by [_resetTimer] is pending. *)
Record InputBuffer : Type := mkInputBuffer {
  buffer : string;
  timeout : Z;
  timer : bool
}.

(** [new InputBuffer(timeout)] *)
Definition new_InputBuffer (timeout : Z) : InputBuffer :=
  {| buffer := EmptyString; timeout := timeout; timer := false |}.

(** [_resetTimer()]: a pending time-out is cancelled and a new one
    set. *)
Definition _resetTimer (this : InputBuffer) : InputBuffer :=
  {| buffer := buffer this; timeout := timeout this; timer := true |}.

Definition addKey (key : string) (this : InputBuffer) : InputBuffer :=
  _resetTimer
    {| buffer := buffer this ++ key; timeout := timeout this;
       timer := timer this |}.

Definition clear (this : InputBuffer) : InputBuffer :=
  {| buffer := EmptyString; timeout := timeout this; timer := false |}.

Definition matches (this : InputBuffer) (target : string) : bool :=
  String.eqb (buffer this) target.

Definition isPartialMatch (this : InputBuffer) (target : string) : bool :=
  (0 <? String.length (buffer this))%nat
  && String.prefix (buffer this) target
  && (String.length (buffer this) <? String.length target)%nat.

Definition get (this : InputBuffer) : string := buffer this.

Definition length (this : InputBuffer) : nat := String.length (buffer this).

(** The callback of the time-out, which runs when the time-out is
    pending. *)
Definition timer_fires (this : InputBuffer) : InputBuffer :=
  if timer this then clear this else this.

(** The screens of the game controller ([src/index.js]). *)
Inductive screen : Type :=
| GameScreen
| StatsScreen.

(** What the input handler of the game controller does besides changing
    the buffer: [exit()], [setScreen(...)], [handleAnswer(true)], or
    nothing. *)
Inductive reaction : Type :=
| Exit
| SetScreen (shown : screen)
| Answer
| NoReaction.

(** The handler the game controller passes to [useInput], for the
    screen shown and the keys of the current command ([None] when there
    is no current command) at the time of the input.  [escape] is
    [key.escape]. *)
Definition useInput (shown : screen) (currentCommand : option string)
    (input : string) (escape : bool) (inputBuffer : InputBuffer)
  : reaction * InputBuffer :=
  if escape || String.eqb input "q" then (Exit, inputBuffer)
  else if String.eqb input "s" then (SetScreen StatsScreen, inputBuffer)
  else
    match shown, escape, currentCommand with
    | StatsScreen, true, _ => (SetScreen GameScreen, inputBuffer)
    | GameScreen, _, Some keys =>
        let inputBuffer := addKey input inputBuffer in
        if matches inputBuffer keys then (Answer, clear inputBuffer)
        else (NoReaction, inputBuffer)
    | _, _, _ => (NoReaction, inputBuffer)
    end.

(** What happens to the buffer of the game: an input, handled with the
    screen and the current command of that moment, or the time-out of
    the buffer. *)
Inductive event : Type :=
| Key (shown : screen) (currentCommand : option string) (input : string)
      (escape : bool)
| TimerFires.

Definition step (this : InputBuffer) (e : event) : reaction * InputBuffer :=
  match e with
  | Key shown currentCommand input escape =>
      useInput shown currentCommand input escape this
  | TimerFires => (NoReaction, timer_fires this)
  end.

(** The reactions and the buffer after a history of events. *)
Fixpoint run (this : InputBuffer) (events : list event)
  : list reaction * InputBuffer :=
  match events with
  | [] => ([], this)
  | e :: rest =>
      let (r, this) := step this e in
      let (rs, this) := run this rest in
      (r :: rs, this)
  end.

(** The inputs joined, as typed one after the other. *)
Fixpoint typed (inputs : list string) : string :=
  match inputs with
  | [] => EmptyString
  | input :: rest => input ++ typed rest
  end.

(** An input that reaches the buffer on the game screen: not empty, and
    neither of the inputs the handler answers itself. *)
Definition playable (input : string) : bool :=
  negb (String.eqb input EmptyString)
  && negb (String.eqb input "q") && negb (String.eqb input "s").

(** The inputs typed on the game screen while a command with the given
    keys is current. *)
Definition typing (keys : string) (inputs : list string) : list event :=
  map (fun input => Key GameScreen (Some keys) input false) inputs.

(** The string has the character. *)
Fixpoint mentions (c : Ascii.ascii) (s : string) : bool :=
  match s with
  | EmptyString => false
  | String a rest => Ascii.eqb a c || mentions c rest
  end.

(** The event is no input of more than one character. *)
Definition single_key (e : event) : bool :=
  match e with
  | Key _ _ input _ => (String.length input <=? 1)%nat
  | TimerFires => true
  end.

(** The event is handled while a command with the given keys is
    current. *)
Definition during (keys : string) (e : event) : bool :=
  match e with
  | Key _ (Some keys') _ _ => String.eqb keys' keys
  | Key _ None _ _ => false
  | TimerFires => true
  end.

Definition is_answer (r : reaction) : bool :=
  match r with
  | Answer => true
  | _ => false
  end.

End KeyParser.

(* ===================================================================== *)
(** * src/utils/storage.js: loading the saved progress *)
(* ===================================================================== *)

Module Storage.

Local Open Scope string_scope.

(** The values a configuration file holds, and [undefined] for an absent
    key. *)
Inductive json : Type :=
| JUndefined
| JNull
| JBool (b : bool)
| JNum (n : Z)
| JStr (s : string)
| JArray (items : list json)
| JObject (props : list (string * json)).

(** [!!v] *)
Definition truthy (v : json) : bool :=
  match v with
  | JUndefined | JNull => false
  | JBool b => b
  | JNum n => negb (n =? 0)%Z
  | JStr s => negb (String.eqb s EmptyString)
  | JArray _ | JObject _ => true
  end.

(** [typeof v === 'object'] *)
Definition typeof_object (v : json) : bool :=
  match v with
  | JNull | JArray _ | JObject _ => true
  | _ => false
  end.

(** [v === null] *)
Definition is_null (v : json) : bool :=
  match v with
  | JNull => true
  | _ => false
  end.

(** [Array.isArray(v)] *)
Definition isArray (v : json) : bool :=
  match v with
  | JArray _ => true
  | _ => false
  end.

Fixpoint lookup (field : string) (props : list (string * json)) : option json :=
  match props with
  | [] => None
  | (k, v) :: rest => if String.eqb k field then Some v else lookup field rest
  end.

(** [field in v] for a value with [typeof v === 'object'] that is not
    [null], and a field name that is neither an index, nor [length], nor
    a property of the prototypes (the names the code tests are none of
    these). *)
Definition has_field (field : string) (v : json) : bool :=
  match v with
  | JObject props =>
      match lookup field props with
      | Some _ => true
      | None => false
      end
  | _ => false
  end.

(** [v.field] for such a field name. *)
Definition get_field (v : json) (field : string) : json :=
  match v with
  | JObject props =>
      match lookup field props with
      | Some x => x
      | None => JUndefined
      end
  | _ => JUndefined
  end.

(** [_getDefaultProgress()] of a [Storage] with the given [packId]. *)
Definition _getDefaultProgress (packId : json) : json :=
  JObject
    [ ("app", packId);
      ("currentGroup", JNum 0);
      ("unlockedGroups", JArray [JNum 0]);
      ("commandStats", JObject []);
      ("globalStats",
       JObject [ ("totalCommands", JNum 0);
                 ("totalTime", JNum 0);
                 ("bestCombo", JNum 0);
                 ("totalScore", JNum 0) ]) ].

Definition required : list string :=
  ["app"; "currentGroup"; "unlockedGroups"; "commandStats"; "globalStats"].

Definition statsRequired : list string :=
  ["totalCommands"; "totalTime"; "bestCombo"; "totalScore"].

Definition _validateProgress (progress : json) : bool :=
  if negb (truthy progress) || negb (typeof_object progress) then false
  else if negb (forallb (fun field => has_field field progress) required)
  then false
  else if negb (isArray (get_field progress "unlockedGroups")) then false
  else if negb (typeof_object (get_field progress "commandStats"))
          || is_null (get_field progress "commandStats") then false
  else if negb (typeof_object (get_field progress "globalStats"))
          || is_null (get_field progress "globalStats") then false
  else if negb (forallb (fun field =>
                           has_field field (get_field progress "globalStats"))
                        statsRequired)
  then false
  else true.

(** What [this.config.get(this.key)] did: it raised an exception, or
    returned the stored value ([JUndefined] when the key is absent). *)
Inductive config_get : Type :=
| Raised
| Got (progress : json).

(** [loadProgress()] *)
Definition loadProgress (packId : json) (stored : config_get) : json :=
  match stored with
  | Raised => _getDefaultProgress packId
  | Got progress =>
      if truthy progress && _validateProgress progress then progress
      else _getDefaultProgress packId
  end.

End Storage.

(* ===================================================================== *)
(** * Properties of the SRS engine *)
(* ===================================================================== *)

Section SRSProperties.

Import SRS.

(** The level after one answer, as a function of the level before. *)
Lemma updateCommandState_level cmd isCorrect t :
  level (updateCommandState cmd isCorrect t) =
  the (let l := nullish_or (level cmd) 0 in
       if isCorrect then
         if (3 <=? nullish_or (successes cmd) 0 + 1) && (l <? 5) then l + 1 else l
       else 0).
Proof.
  unfold updateCommandState, SUCCESSES_TO_ADVANCE, MAX_LEVEL.
  destruct isCorrect; [|reflexivity].
  destruct ((3 <=? nullish_or (successes cmd) 0 + 1)
            && (nullish_or (level cmd) 0 <? 5)); reflexivity.
Qed.

Lemma updateCommandState_successes cmd isCorrect t :
  successes (updateCommandState cmd isCorrect t) =
  the (let s := nullish_or (successes cmd) 0 + 1 in
       if isCorrect then
         if (3 <=? s) && (nullish_or (level cmd) 0 <? 5) then 0 else s
       else 0).
Proof.
  unfold updateCommandState, SUCCESSES_TO_ADVANCE, MAX_LEVEL.
  destruct isCorrect; [|reflexivity].
  destruct ((3 <=? nullish_or (successes cmd) 0 + 1)
            && (nullish_or (level cmd) 0 <? 5)); reflexivity.
Qed.

(** C1.  Whatever the state and the time [t], an incorrect answer gives
    level 0, successes 0 and one more failure than before (an absent
    counter counts as 0, as the code's [?? 0] has it); [lastSeen] is [t]
    and [nextReview] is [calculateNextReview(0, t)], which is [t]. *)
Theorem C1_failure_resets (cmd : command) (t : Z) :
  let cmd' := updateCommandState cmd false t in
  level cmd' = the 0 /\
  successes cmd' = the 0 /\
  failures cmd' = the (nullish_or (failures cmd) 0 + 1) /\
  lastSeen cmd' = the t /\
  nextReview cmd' = the (calculateNextReview 0 t) /\
  calculateNextReview 0 t = t.
Proof.
  cbv zeta. unfold updateCommandState. cbn. repeat split; reflexivity.
Qed.

(** A run of correct answers never lowers the level and never takes it
    above 5. *)
Lemma correct_answers_level times : forall cmd l,
  level cmd = the l ->
  l <= 5 ->
  exists l', level (answer_all cmd (map (fun t => (true, t)) times)) = the l'
             /\ l <= l' <= 5.
Proof.
  induction times as [|t times IH]; intros cmd l Hl Hle; cbn [map answer_all].
  - exists l. split; [exact Hl | lia].
  - pose proof (updateCommandState_level cmd true t) as Hstep.
    rewrite Hl in Hstep. cbn in Hstep.
    destruct ((3 <=? nullish_or (successes cmd) 0 + 1) && (l <? 5)) eqn:E.
    + apply andb_prop in E. destruct E as [_ E]. apply Z.ltb_lt in E.
      destruct (IH _ (l + 1) Hstep) as [l' [H1 H2]]; [lia|].
      exists l'. split; [exact H1 | lia].
    + destruct (IH _ l Hstep Hle) as [l' [H1 H2]].
      exists l'. split; [exact H1 | lia].
Qed.

(** C2.  From a level [l] in 0..5 one answer, correct or not, leaves the
    level in 0..5, and either the level is unchanged or successes is 0
    (that is, successes is 0 whenever the level changed).  Any number of
    correct answers in a row leaves the level between [l] and 5: at
    level 5 it stays 5. *)
Theorem C2_level_bounds (cmd : command) (l : Z) (isCorrect : bool) (t : Z)
    (times : list Z) :
  level cmd = the l ->
  0 <= l <= 5 ->
  (exists l',
     level (updateCommandState cmd isCorrect t) = the l' /\
     0 <= l' <= 5 /\
     (l' = l \/ successes (updateCommandState cmd isCorrect t) = the 0)) /\
  (exists l',
     level (answer_all cmd (map (fun t => (true, t)) times)) = the l' /\
     l <= l' <= 5).
Proof.
  intros Hl Hr. split.
  - rewrite updateCommandState_level, updateCommandState_successes, Hl. cbn.
    eexists; split; [reflexivity|].
    destruct isCorrect; [|split; [lia | right; reflexivity]].
    destruct (3 <=? nullish_or (successes cmd) 0 + 1); cbn.
    + destruct (Z.ltb_spec l 5); split; try lia; auto.
    + split; [lia | left; reflexivity].
  - apply correct_answers_level; [exact Hl | lia].
Qed.

Lemma C2_level_bounds_witness :
  (exists l',
     level (updateCommandState
              (mkCommand "dd" (the 5) (the 2) (the 0) null null) true 1000)
       = the l' /\
     0 <= l' <= 5 /\
     (l' = 5 \/
      successes (updateCommandState
                   (mkCommand "dd" (the 5) (the 2) (the 0) null null) true 1000)
        = the 0)) /\
  (exists l',
     level (answer_all (mkCommand "dd" (the 5) (the 2) (the 0) null null)
                       (map (fun t => (true, t)) [1; 2; 3; 4])) = the l' /\
     5 <= l' <= 5).
Proof.
  apply (C2_level_bounds (mkCommand "dd" (the 5) (the 2) (the 0) null null)
                         5 true 1000 [1; 2; 3; 4]).
  - reflexivity.
  - lia.
Defined.

(** C3.  From successes 0 and a level below 5, three correct answers in a
    row (at any times) give the next level and successes 0. *)
Theorem C3_three_correct_advance (cmd : command) (l t1 t2 t3 : Z) :
  level cmd = the l ->
  successes cmd = the 0 ->
  l < 5 ->
  let cmd' := answer_all cmd [(true, t1); (true, t2); (true, t3)] in
  level cmd' = the (l + 1) /\ successes cmd' = the 0.
Proof.
  intros Hl Hs Hlt. cbn [answer_all].
  assert (H1 : level (updateCommandState cmd true t1) = the l
               /\ successes (updateCommandState cmd true t1) = the 1).
  { rewrite updateCommandState_level, updateCommandState_successes, Hl, Hs.
    cbn. split; reflexivity. }
  destruct H1 as [Hl1 Hs1].
  set (c1 := updateCommandState cmd true t1) in *.
  assert (H2 : level (updateCommandState c1 true t2) = the l
               /\ successes (updateCommandState c1 true t2) = the 2).
  { rewrite updateCommandState_level, updateCommandState_successes, Hl1, Hs1.
    cbn. split; reflexivity. }
  destruct H2 as [Hl2 Hs2].
  set (c2 := updateCommandState c1 true t2) in *.
  rewrite updateCommandState_level, updateCommandState_successes, Hl2, Hs2.
  cbn. destruct (Z.ltb_spec l 5); [|lia]. split; reflexivity.
Qed.

Lemma C3_three_correct_advance_witness :
  let cmd' := answer_all (mkCommand "dd" (the 4) (the 0) (the 7) null null)
                         [(true, 10); (true, 20); (true, 30)] in
  level cmd' = the (4 + 1) /\ successes cmd' = the 0.
Proof.
  apply (C3_three_correct_advance
           (mkCommand "dd" (the 4) (the 0) (the 7) null null) 4 10 20 30).
  - reflexivity.
  - reflexivity.
  - lia.
Defined.

Lemma strict_eq_the x n : strict_eq x (the n) = true <-> x = the n.
Proof.
  destruct x as [| |a]; cbn; split; try discriminate.
  - intros H. apply Z.eqb_eq in H. congruence.
  - intros H. injection H as ->. apply Z.eqb_refl.
Qed.

(** C9, at the state [{level: 1, nextReview: 0}] with no command since
    the last review and the clock at 1000: [nextReview] is set and has
    been reached, so the command is due, yet the call returns the number
    0, neither [true] nor a boolean. *)
Lemma C9_zero_timestamp_counterexample :
  let cmd := mkCommand "dd" (the 1) (the 0) (the 0) null (the 0) in
  due_as_specified cmd 0 1000 /\
  shouldReviewCommand cmd 0 1000 = VNum 0 /\
  ~ (shouldReviewCommand cmd 0 1000 = VBool true <-> due_as_specified cmd 0 1000).
Proof.
  cbv zeta.
  assert (Hdue : due_as_specified
                   (mkCommand "dd" (the 1) (the 0) (the 0) null (the 0)) 0 1000).
  { right. right. exists 0. split; [reflexivity | lia]. }
  split; [exact Hdue|]. split; [reflexivity|].
  intros [_ H]. specialize (H Hdue). discriminate H.
Qed.

(** What the code computes.  [shouldReviewCommand] returns [true]
    exactly when the level is 0, or the number of commands since the
    last review has reached the interval of the level, or [nextReview]
    is a timestamp other than 0 that [now] has reached: the guard
    [command.nextReview && ...] drops the timestamp 0.  The interval is
    read from the table 0, 3, 10, 25, 50, 100 and is 0 for any other
    level.  A result other than [true] is falsy. *)
Lemma shouldReviewCommand_computes (cmd : command) (commandsSinceLastSeen now : Z) :
  (shouldReviewCommand cmd commandsSinceLastSeen now = VBool true
   <-> due_as_computed cmd commandsSinceLastSeen now) /\
  (truthy (shouldReviewCommand cmd commandsSinceLastSeen now) = true
   <-> shouldReviewCommand cmd commandsSinceLastSeen now = VBool true) /\
  map (fun l => interval_of (the l)) [0; 1; 2; 3; 4; 5] = [0; 3; 10; 25; 50; 100] /\
  (forall l, l < 0 \/ 5 < l -> interval_of (the l) = 0) /\
  interval_of undefined = 0 /\ interval_of null = 0.
Proof.
  assert (Hout : forall l, l < 0 \/ 5 < l -> interval_of (the l) = 0).
  { intros l Hl. unfold interval_of, index.
    destruct (Z.ltb_spec l 0); [reflexivity|].
    assert (Hn : (6 <= Z.to_nat l)%nat) by lia.
    destruct (nth_error SRS_INTERVALS (Z.to_nat l)) eqn:E; [|reflexivity].
    assert (Hlt : (Z.to_nat l < List.length SRS_INTERVALS)%nat).
    { apply nth_error_Some. rewrite E. discriminate. }
    cbn in Hlt. lia. }
  repeat split; try reflexivity; try exact Hout.
  - unfold shouldReviewCommand, due_as_computed.
    destruct (strict_eq (level cmd) (the 0)) eqn:E0.
    + intros _. left. apply strict_eq_the. exact E0.
    + unfold or_else, and_then. cbn [truthy].
      destruct (Z.leb_spec (interval_of (level cmd)) commandsSinceLastSeen)
        as [Hle | Hgt].
      * intros _. right. left. assumption.
      * destruct (nextReview cmd) as [| |t]; cbn; try discriminate.
        destruct (Z.eqb_spec t 0); cbn; [discriminate|].
        intros Hret. right. right. exists t. repeat split; auto.
        apply Z.leb_le. congruence.
  - unfold shouldReviewCommand, due_as_computed.
    intros [H | [H | [t [Ht [Hnz Hle]]]]].
    + apply strict_eq_the in H. rewrite H. reflexivity.
    + destruct (strict_eq (level cmd) (the 0)); [reflexivity|].
      apply Z.leb_le in H. rewrite H. reflexivity.
    + destruct (strict_eq (level cmd) (the 0)); [reflexivity|].
      unfold or_else, and_then. cbn [truthy].
      destruct (interval_of (level cmd) <=? commandsSinceLastSeen);
        [reflexivity|].
      rewrite Ht. cbn. apply Z.eqb_neq in Hnz. rewrite Hnz. cbn.
      apply Z.leb_le in Hle. rewrite Hle. reflexivity.
  - unfold shouldReviewCommand.
    destruct (strict_eq (level cmd) (the 0)); [reflexivity|].
    unfold or_else, and_then. cbn [truthy].
    destruct (interval_of (level cmd) <=? commandsSinceLastSeen);
      [reflexivity|].
    destruct (nextReview cmd) as [| |t]; cbn; try discriminate.
    destruct (t =? 0) eqn:E; cbn; [rewrite E; discriminate|].
    destruct (t <=? now); cbn; intros Ht; [reflexivity | discriminate Ht].
  - intros ->. reflexivity.
Qed.

End SRSProperties.

(* ===================================================================== *)
(** * Properties of the scorer *)
(* ===================================================================== *)

Section ScorerProperties.

Import Scorer.

Lemma clamp_below_Qmax (x : Q) :
  ((if negb (Qle_bool 0 x) then 0 else x) == Qmax x 0)%Q.
Proof.
  destruct (Qle_bool 0 x) eqn:E; cbn.
  - apply Qle_bool_iff in E. symmetry. apply Q.max_l. exact E.
  - assert (H : (x <= 0)%Q).
    { destruct (Qlt_le_dec x 0) as [Hlt | Hge].
      - apply Qlt_le_weak. exact Hlt.
      - apply Qle_bool_iff in Hge. congruence. }
    symmetry. apply Q.max_r. exact H.
Qed.

Lemma clamp_level (level : Z) :
  (let level := if level <? 0 then 0 else level in
   if 5 <? level then 5 else level) = Z.min (Z.max level 0) 5.
Proof.
  cbv zeta. destruct (Z.ltb_spec level 0).
  - cbn. lia.
  - destruct (Z.ltb_spec 5 level); lia.
Qed.

Lemma clamp_combo (combo : Z) :
  (if combo <? 0 then 0 else combo) = Z.max combo 0.
Proof. destruct (Z.ltb_spec combo 0); lia. Qed.

Lemma getComboMultiplier_clamped (combo : Z) :
  getComboMultiplier (if combo <? 0 then 0 else combo) = Z.max combo 0 / 5 + 1.
Proof.
  unfold getComboMultiplier. rewrite !clamp_combo.
  replace (Z.max (Z.max combo 0) 0) with (Z.max combo 0) by lia.
  reflexivity.
Qed.

(** Read in exact arithmetic, the body of [calculateScore] is the
    formula of the specification at the clamped inputs. *)
Lemma calculateScore_exact_formula (timeRemaining maxTime : Q) (level combo : Z) :
  calculateScore timeRemaining maxTime level combo
    = score_as_specified timeRemaining maxTime level combo.
Proof.
  unfold calculateScore, score_as_specified. cbv zeta.
  rewrite getComboMultiplier_clamped.
  pose proof (clamp_level level) as Hl. cbv zeta in Hl. rewrite Hl.
  apply Qfloor_comp.
  rewrite (clamp_below_Qmax timeRemaining). reflexivity.
Qed.

(** Rounding does not depend on how the rational is written. *)
Lemma nearest_comp (x y : Q) :
  (x == y)%Q -> Binary64.nearest x = Binary64.nearest y.
Proof.
  intros H. unfold Binary64.nearest.
  rewrite (Qred_complete x y H). reflexivity.
Qed.

Lemma div_comp (a a' b : Q) :
  (a == a')%Q -> Binary64.div (Fin a) (Fin b) = Binary64.div (Fin a') (Fin b).
Proof.
  intros H. unfold Binary64.div, Binary64.quotient.
  destruct (Qeq_bool b 0).
  - rewrite H. reflexivity.
  - cbn [Binary64.rounded]. apply nearest_comp. rewrite H. reflexivity.
Qed.

(** C8, at two of three seconds remaining, level 2 and no combo.  The
    formula gives [(100 + (2 / 3) * 50) * 3 * 1 = 400].  The code
    computes in binary64: the quotient is rounded down, the sum is
    133.33333333333331 and the product 399.99999999999994, so the score
    is 399. *)
Lemma C8_rounding_counterexample :
  Scorer.score_as_specified 2 3 2 0 = 400 /\
  Scorer64.calculateScore 2 3 2 0 = Fin 399 /\
  Scorer64.calculateScore 2 3 2 0
  <> Fin (inject_Z (Scorer.score_as_specified 2 3 2 0)).
Proof.
  split; [reflexivity|]. split; [vm_compute; reflexivity|].
  vm_compute. discriminate.
Qed.

(** C8, amended.  On every input [calculateScore] is the floor of
    [(100 + (timeRemaining / maxTime) * 50) * (level + 1) * (floor(combo / 5) + 1)]
    taken at the clamped inputs and computed in binary64, every
    operation rounded to the nearest number in the order written; it
    gives 1800, 1500 and 100 on the three sample inputs. *)
Theorem C8_score_binary64 (timeRemaining maxTime : Q) (level combo : Z) :
  Scorer64.calculateScore timeRemaining maxTime level combo
    = Scorer64.score_as_specified timeRemaining maxTime level combo /\
  Scorer64.calculateScore 2 2 3 12 = Fin 1800 /\
  Scorer64.calculateScore 1 2 5 7 = Fin 1500 /\
  Scorer64.calculateScore 0 2 0 0 = Fin 100.
Proof.
  split; [|repeat split; vm_compute; reflexivity].
  unfold Scorer64.calculateScore, Scorer64.score_as_specified,
    Scorer64.getComboMultiplier.
  cbv zeta.
  pose proof (clamp_level level) as Hl. cbv zeta in Hl. rewrite Hl.
  rewrite !clamp_combo.
  replace (Z.max (Z.max combo 0) 0) with (Z.max combo 0) by lia.
  rewrite (div_comp _ _ _ (clamp_below_Qmax timeRemaining)).
  reflexivity.
Qed.

(** C7.  [recordAttempt] sets [currentCombo] to
    [updateCombo(isCorrect, currentCombo)], makes [bestCombo] the larger
    of its old value and the new combo, adds one to [correctCount] on a
    correct attempt and to [incorrectCount] otherwise, and on a correct
    attempt adds [calculateScore] at the new combo to [totalScore] and
    returns it.  On a failed attempt the returned score is 0,
    [totalScore] is unchanged and [currentCombo] is 0. *)
Theorem C7_recordAttempt (this : session) (correct : bool)
    (timeRemaining maxTime : Q) (level : Z) :
  let newCombo := updateCombo correct (currentCombo this) in
  let earned :=
    if correct then calculateScore timeRemaining maxTime level newCombo
    else 0 in
  let '(returned, this') :=
    recordAttempt correct timeRemaining maxTime level this in
  (currentCombo this' = newCombo /\
   bestCombo this' = Z.max (bestCombo this) newCombo /\
   correctCount this' = correctCount this + (if correct then 1 else 0) /\
   incorrectCount this' = incorrectCount this + (if correct then 0 else 1) /\
   totalScore this' = totalScore this + earned) /\
  (score returned = earned /\
   combo returned = newCombo /\
   total returned = totalScore this' /\
   isCorrect returned = correct) /\
  (let '(failed, after) := recordAttempt false timeRemaining maxTime level this in
   score failed = 0 /\
   totalScore after = totalScore this /\
   currentCombo after = 0).
Proof.
  cbv zeta.
  assert (Hbest : forall c,
    (if bestCombo this <? c then c else bestCombo this)
    = Z.max (bestCombo this) c).
  { intros c. destruct (Z.ltb_spec (bestCombo this) c); lia. }
  destruct correct; unfold recordAttempt; cbn [fst snd];
    cbn [currentCombo bestCombo correctCount incorrectCount totalScore
         score combo total isCorrect];
    rewrite ?Hbest; repeat split; try reflexivity; lia.
Qed.

End ScorerProperties.

(* ===================================================================== *)
(** * Properties of the timer *)
(* ===================================================================== *)

Section TimerProperties.

Import Timer.
Local Open Scope Q_scope.

Lemma updateRemaining_nonneg now t :
  remaining_nonneg t ->
  0 <= fst (updateRemaining now t) /\ remaining_nonneg (snd (updateRemaining now t)).
Proof.
  unfold remaining_nonneg, updateRemaining. intros H.
  destruct (negb (isRunning t) || isPaused t); cbn.
  - split; exact H.
  - split; apply Q.le_max_l.
Qed.

Lemma stop_nonneg t : remaining_nonneg (stop t).
Proof. unfold remaining_nonneg. cbn. apply Qle_refl. Qed.

Lemma tick_nonneg now t : remaining_nonneg t -> remaining_nonneg (tick now t).
Proof.
  intros H. unfold tick.
  destruct (updateRemaining_nonneg now t H) as [_ H1].
  destruct (updateRemaining now t) as [r t1]. cbn in H1.
  destruct (Qle_bool r 0); [apply stop_nonneg | exact H1].
Qed.

Lemma start_nonneg now now' t :
  remaining_nonneg t -> remaining_nonneg (start now now' t).
Proof.
  intros H. unfold start.
  destruct (isRunning t && negb (isPaused t)); [exact H|].
  unfold tick, updateRemaining.
  destruct (isPaused t); cbn;
    match goal with
    | |- context [Qle_bool ?r 0] => destruct (Qle_bool r 0)
    end; unfold remaining_nonneg; cbn;
    solve [apply Qle_refl | apply Q.le_max_l].
Qed.

Lemma step_nonneg t c : remaining_nonneg t -> remaining_nonneg (step t c).
Proof.
  intros H. destruct c as [now now' | now | | seconds | now | now]; cbn.
  - apply start_nonneg; exact H.
  - unfold pause. destruct (negb (isRunning t) || isPaused t); exact H.
  - apply stop_nonneg.
  - unfold remaining_nonneg. cbn. apply Q.le_max_l.
  - unfold getRemaining. destruct (isPaused t); [exact H|].
    apply updateRemaining_nonneg; exact H.
  - destruct (intervalId t); [apply tick_nonneg|]; exact H.
Qed.

Lemma run_nonneg calls : forall t,
  remaining_nonneg t -> remaining_nonneg (run t calls).
Proof.
  induction calls as [|c calls IH]; intros t H; cbn.
  - exact H.
  - apply IH. apply step_nonneg. exact H.
Qed.

(** No call but [addTime] changes the total time. *)
Lemma tick_timeLimit now t : timeLimit (tick now t) = timeLimit t.
Proof.
  unfold tick, updateRemaining.
  destruct (negb (isRunning t) || isPaused t); cbn;
    match goal with
    | |- context [Qle_bool ?r 0] => destruct (Qle_bool r 0)
    end; reflexivity.
Qed.

Lemma step_timeLimit t c :
  timeLimit (step t c) == timeLimit t + added [c].
Proof.
  destruct c as [now now' | now | | seconds | now | now]; cbn.
  - unfold start. destruct (isRunning t && negb (isPaused t)); [ring|].
    rewrite tick_timeLimit. destruct (isPaused t); cbn; ring.
  - unfold pause. destruct (negb (isRunning t) || isPaused t); cbn; ring.
  - ring.
  - ring.
  - unfold getRemaining, updateRemaining.
    destruct (isPaused t); [cbn; ring|].
    destruct (negb (isRunning t) || false); cbn; ring.
  - destruct (intervalId t); [rewrite tick_timeLimit|]; ring.
Qed.

Lemma added_cons c calls : added (c :: calls) == added [c] + added calls.
Proof. destruct c; cbn; ring. Qed.

Lemma run_timeLimit calls : forall t,
  timeLimit (run t calls) == timeLimit t + added calls.
Proof.
  induction calls as [|c calls IH]; intros t.
  - cbn. ring.
  - cbn [run fold_left]. fold (run (step t c) calls).
    rewrite IH, step_timeLimit, (added_cons c calls). ring.
Qed.

(** A stopped timer stays as it is until it is started again or given
    time. *)
Lemma stop_stays after : forall t,
  forallb leaves_stopped after = true ->
  run (stop t) after = stop t.
Proof.
  induction after as [|c after IH]; intros t H; [reflexivity|].
  cbn in H. apply andb_prop in H. destruct H as [Hc H].
  cbn [run fold_left]. fold (run (step (stop t) c) after).
  assert (Hs : step (stop t) c = stop t).
  { destruct c; try discriminate Hc; reflexivity. }
  rewrite Hs. apply IH. exact H.
Qed.

(** C5, at two histories.  A timer of two seconds is started and, with
    no tick in between, paused 400 ms later: 1.6 seconds are left, as the
    read after resuming shows, yet while paused [getRemaining()] returns
    2, the value stored by the last tick.  A timer of one second is
    stopped and given five seconds by [addTime]: it is stopped (not
    running, not paused), yet [getRemaining()] returns 5, not 0. *)
Lemma C5_getRemaining_failing_inputs :
  let paused := run (createTimer 2) [Start 0 0; Pause 400] in
  let stopped := run (createTimer 1) [Stop; AddTime 5] in
  (isPaused paused = true /\
   fst (getRemaining 400 paused) == 2 /\
   fst (getRemaining 900 paused) == 2 /\
   fst (getRemaining 900 (start 900 900 paused)) == 8 # 5) /\
  (isRunning stopped = false /\ isPaused stopped = false /\
   fst (getRemaining 2000 stopped) == 5 /\
   ~ fst (getRemaining 2000 stopped) == 0).
Proof.
  cbv zeta. repeat split; try reflexivity.
  intros H. vm_compute in H. discriminate H.
Qed.

End TimerProperties.

(* ===================================================================== *)
(** * Properties of the queue *)
(* ===================================================================== *)

Section QueueProperties.

Import Queue.
Local Open Scope nat_scope.

(** ** Allocation only extends the store *)

Lemma map_with_index_extends elems : forall h i,
  fst (map_with_index h elems i)
    = seq (List.length (objects h)) (List.length elems) /\
  arrays (snd (map_with_index h elems i)) = arrays h /\
  exists new, objects (snd (map_with_index h elems i)) = objects h ++ new
              /\ List.length new = List.length elems.
Proof.
  induction elems as [|l rest IH]; intros h i; cbn.
  - repeat split. exists []. rewrite app_nil_r. split; reflexivity.
  - specialize (IH (snd (alloc h (with_index (read h l) i))) (S i)).
    cbn in IH.
    destruct (map_with_index
                {| objects := objects h ++ [with_index (read h l) i];
                   arrays := arrays h |} rest (S i)) as [ls h2].
    cbn in *. destruct IH as [Hls [Harr [new [Hobj Hlen]]]].
    rewrite length_app in Hls. cbn in Hls.
    repeat split.
    + rewrite Hls. f_equal. f_equal. lia.
    + exact Harr.
    + exists (with_index (read h l) i :: new). rewrite Hobj, <- app_assoc.
      cbn. split; [reflexivity | lia].
Qed.

Lemma read_extended h h' new l :
  objects h' = objects h ++ new ->
  l < List.length (objects h) ->
  read h' l = read h l.
Proof.
  intros Hobj Hl. unfold read. rewrite Hobj. apply app_nth1. exact Hl.
Qed.

(** The object allocated for position [k] is the element at [k] with its
    position added. *)
Lemma map_with_index_cons h l rest i :
  map_with_index h (l :: rest) i =
  (List.length (objects h)
     :: fst (map_with_index (snd (alloc h (with_index (read h l) i))) rest (S i)),
   snd (map_with_index (snd (alloc h (with_index (read h l) i))) rest (S i))).
Proof.
  cbn [map_with_index]. unfold alloc. cbn [fst snd].
  destruct (map_with_index _ rest (S i)); reflexivity.
Qed.

Lemma map_with_index_read elems : forall h i k,
  Forall (fun l => l < List.length (objects h)) elems ->
  k < List.length elems ->
  read (snd (map_with_index h elems i)) (List.length (objects h) + k)
  = with_index (read h (nth k elems 0)) (i + k).
Proof.
  induction elems as [|l rest IH]; intros h i k Hwf Hk; cbn in Hk; [lia|].
  inversion Hwf as [|? ? Hl Hrest]; subst.
  rewrite map_with_index_cons. cbn [snd].
  set (h1 := snd (alloc h (with_index (read h l) i))).
  assert (Hobj1 : objects h1 = objects h ++ [with_index (read h l) i])
    by reflexivity.
  destruct (map_with_index_extends rest h1 (S i))
    as [_ [_ [new [Hobj _]]]].
  destruct k as [|k].
  - rewrite !Nat.add_0_r. unfold read at 1.
    rewrite Hobj, Hobj1, <- app_assoc.
    rewrite app_nth2 by lia. rewrite Nat.sub_diag. reflexivity.
  - replace (List.length (objects h) + S k)
      with (List.length (objects h1) + k)
      by (rewrite Hobj1, length_app; cbn; lia).
    rewrite IH.
    + replace (S i + k) with (i + S k) by lia. f_equal.
      cbn [nth]. apply (read_extended h h1 [with_index (read h l) i] _ Hobj1).
      rewrite Forall_forall in Hrest. apply Hrest. apply nth_In. lia.
    + eapply Forall_impl; [|exact Hrest]. cbn. intros a Ha.
      rewrite length_app. cbn. lia.
    + lia.
Qed.

(** ** Indexing and the random draw *)

Lemma random_index_range (rnd : Q) (len : nat) :
  (0 <= rnd < 1)%Q -> 0 < len ->
  (0 <= random_index rnd len < Z.of_nat len)%Z.
Proof.
  intros [H0 H1] Hlen. unfold random_index, floor.
  assert (Hpos : (0 < inject_Z (Z.of_nat len))%Q).
  { rewrite <- (Zlt_Qlt 0). lia. }
  split.
  - change 0%Z with (Qfloor 0). apply Qfloor_resp_le.
    apply Qmult_le_0_compat; [exact H0 | apply Qlt_le_weak; exact Hpos].
  - rewrite Zlt_Qlt.
    apply Qle_lt_trans with (rnd * inject_Z (Z.of_nat len))%Q;
      [apply Qfloor_le|].
    rewrite <- (Qmult_1_l (inject_Z (Z.of_nat len))) at 2.
    apply Qmult_lt_compat_r; assumption.
Qed.

Lemma index_in_range {A : Type} (l : list A) (i : Z) :
  (0 <= i < Z.of_nat (List.length l))%Z ->
  exists x, index l i = the x /\ In x l.
Proof.
  intros Hi. unfold index.
  destruct (Z.ltb_spec i 0); [lia|].
  destruct (nth_error l (Z.to_nat i)) as [x|] eqn:E.
  - exists x. split; [reflexivity|]. eapply nth_error_In. exact E.
  - apply nth_error_None in E. lia.
Qed.

Lemma walk_In pool : forall random weights l,
  walk random pool weights = Some l -> In l pool.
Proof.
  induction pool as [|c pool IH]; intros random weights l H; cbn in H.
  - discriminate.
  - destruct weights as [|w weights]; [discriminate|].
    destruct (num_le0 (num_sub random w)).
    + injection H as <-. left. reflexivity.
    + right. eapply IH. exact H.
Qed.

Lemma filter_nil_existsb {A : Type} (f : A -> bool) (l : list A) :
  filter f l = [] <-> existsb f l = false.
Proof.
  induction l as [|a l IH]; cbn; [tauto|].
  destruct (f a); cbn; [split; discriminate | exact IH].
Qed.

Lemma existsb_map_in {A B : Type} (f : B -> bool) (g : A -> B)
    (f' : A -> bool) (l : list A) :
  (forall a, In a l -> f (g a) = f' a) ->
  existsb f (map g l) = existsb f' l.
Proof.
  induction l as [|a l IH]; intros H; cbn; [reflexivity|].
  rewrite (H a) by (left; reflexivity).
  rewrite IH by (intros a' Ha'; apply H; right; exact Ha').
  reflexivity.
Qed.

(** ** The choice from the pool *)

(** From a non-empty pool the choice is an element of the pool, of level
    0 if the pool has one; it raises an exception only when the pool has
    no command of level 0 and the weights cannot be computed. *)
Lemma select_from_pool_spec h pool rnd :
  pool <> [] -> (0 <= rnd < 1)%Q ->
  match select_from_pool h pool rnd with
  | Return (the l) =>
      In l pool /\
      (existsb (fun l => level_is_0 (read h l)) pool = true ->
       level_is_0 (read h l) = true)
  | Return _ => False
  | Throw e =>
      existsb (fun l => level_is_0 (read h l)) pool = false /\
      weights_of h pool = Throw e
  end.
Proof.
  intros Hne Hrnd. unfold select_from_pool.
  assert (Hlen : 0 < List.length pool).
  { destruct pool; [congruence | cbn; lia]. }
  assert (Hlast : exists x, index pool (Z.of_nat (List.length pool) - 1) = the x
                            /\ In x pool).
  { apply index_in_range. lia. }
  assert (Hany : exists x, index pool (random_index rnd (List.length pool)) = the x
                           /\ In x pool).
  { apply index_in_range. apply random_index_range; assumption. }
  destruct (filter (fun l => level_is_0 (read h l)) pool) as [|c zeros] eqn:E0.
  - apply filter_nil_existsb in E0. rewrite E0.
    destruct (weights_of h pool) as [e | weights]; [split; reflexivity|].
    destruct (num_is0 (fold_left num_add weights (Fin 0))).
    + destruct Hany as [x [-> Hx]]. split; [exact Hx | discriminate].
    + destruct (walk _ pool weights) as [l|] eqn:Ew.
      * split; [eapply walk_In; exact Ew | discriminate].
      * destruct Hlast as [x [-> Hx]]. split; [exact Hx | discriminate].
  - destruct (index_in_range (c :: zeros)
                (random_index rnd (List.length (c :: zeros)))) as [x [-> Hx]].
    { apply random_index_range; [assumption | cbn; lia]. }
    rewrite <- E0 in Hx. apply filter_In in Hx. destruct Hx as [Hx Hz].
    split; [exact Hx | intros _; exact Hz].
Qed.

(** ** The level check of [getCommandWeights] *)


(** ** The lists built by [selectNextCommand], by position *)

Lemma filter_shift (f g : nat -> bool) (ref : nat -> nat) (ks : list nat) :
  (forall k, In k ks -> f (ref k) = g k) ->
  filter f (map ref ks) = map ref (filter g ks).
Proof.
  induction ks as [|k ks IH]; intros H; cbn; [reflexivity|].
  rewrite (H k) by (left; reflexivity).
  rewrite IH by (intros k' Hk'; apply H; right; exact Hk').
  destruct (g k); reflexivity.
Qed.

Lemma seq_from (n0 n : nat) : seq n0 n = map (Nat.add n0) (seq 0 n).
Proof.
  revert n0. induction n as [|n IH]; intros n0; cbn; [reflexivity|].
  rewrite Nat.add_0_r. f_equal. rewrite (IH (S n0)), (IH 1), map_map.
  apply map_ext. intros k. lia.
Qed.

Lemma due_positions_bound h elems now k :
  In k (due_positions h elems now) -> k < List.length elems.
Proof.
  unfold due_positions. intros H. apply filter_In in H.
  destruct H as [H _]. apply in_seq in H. lia.
Qed.

Lemma due_positions_due h elems now k :
  In k (due_positions h elems now) -> is_due (command_at h elems k) now = true.
Proof. unfold due_positions. intros H. apply filter_In in H. tauto. Qed.

Lemma candidate_pool_due h elems cur now k :
  In k (candidate_pool h elems cur now) -> In k (due_positions h elems now).
Proof.
  unfold candidate_pool.
  destruct (filter _ (due_positions h elems now)) as [|k0 ks] eqn:E;
    [tauto|].
  rewrite <- E. intros H. apply filter_In in H. tauto.
Qed.

Lemma candidate_pool_nil h elems cur now :
  candidate_pool h elems cur now = [] <-> due_positions h elems now = [].
Proof.
  unfold candidate_pool.
  destruct (filter _ (due_positions h elems now)) as [|k0 ks] eqn:E;
    [tauto|].
  split; [discriminate|]. intros H. rewrite H in E. discriminate E.
Qed.

(** The default [null] of [currentCommandIndex] excludes nothing, like
    [undefined]. *)
Lemma candidate_pool_default h elems cur now :
  candidate_pool h elems
    match cur with undefined => null | given => given end now
  = candidate_pool h elems cur now.
Proof. destruct cur; reflexivity. Qed.

(** No position is due exactly when every command has a [nextReview] that
    is set and after [now]. *)
Lemma due_positions_nil h elems now :
  due_positions h elems now = [] <->
  Forall (fun l => exists t, nextReview (read h l) = the t /\ (now < t)%Z) elems.
Proof.
  assert (Hdue : forall c, is_due c now = false <->
                           exists t, nextReview c = the t /\ (now < t)%Z).
  { intros c. unfold is_due. destruct (nextReview c) as [| |t].
    - split; [discriminate | intros [t [Ht _]]; discriminate Ht].
    - split; [discriminate | intros [t [Ht _]]; discriminate Ht].
    - rewrite Z.leb_gt. split.
      + intros Ht. exists t. split; [reflexivity | exact Ht].
      + intros [t' [Ht' Hlt]]. injection Ht' as ->. exact Hlt. }
  unfold due_positions. rewrite filter_nil_existsb, Forall_forall. split.
  - intros H l Hl. apply Hdue.
    destruct (In_nth _ _ 0 Hl) as [k [Hk Hnth]].
    destruct (is_due (read h l) now) eqn:Ed; [|reflexivity].
    assert (Hex : existsb (fun k => is_due (command_at h elems k) now)
                          (seq 0 (List.length elems)) = true).
    { apply existsb_exists. exists k. split; [apply in_seq; lia|].
      unfold command_at. rewrite Hnth. exact Ed. }
    congruence.
  - intros H.
    destruct (existsb _ (seq 0 (List.length elems))) eqn:Ex; [|reflexivity].
    apply existsb_exists in Ex. destruct Ex as [k [Hk Ed]].
    apply in_seq in Hk.
    assert (Hnd : is_due (command_at h elems k) now = false).
    { apply Hdue. apply H. apply nth_In. lia. }
    congruence.
Qed.

(** ** The call on an array whose elements are objects of the store *)

Section WellFormedArray.

Variables (h : heap) (elems : list nat).
Hypothesis elems_allocated :
  Forall (fun l => l < List.length (objects h)) elems.

(** The object allocated for position [k] is the command at [k] with
    [originalIndex] set to [k]. *)
Lemma copy_at k :
  k < List.length elems ->
  read (store_after_map h elems) (copy_ref h k)
  = with_index (command_at h elems k) k.
Proof.
  intros Hk. unfold store_after_map, copy_ref.
  rewrite (map_with_index_read elems h 0 k elems_allocated Hk). reflexivity.
Qed.

Lemma copy_allocated k :
  k < List.length elems ->
  nth_error (objects (store_after_map h elems)) (copy_ref h k)
  = Some (with_index (command_at h elems k) k).
Proof.
  intros Hk. rewrite <- (copy_at k Hk). unfold read.
  apply nth_error_nth'. unfold store_after_map, copy_ref.
  destruct (map_with_index_extends elems h 0) as [_ [_ [new [-> Hlen]]]].
  rewrite length_app. lia.
Qed.

Lemma pool_copy cur now k :
  In k (candidate_pool h elems cur now) ->
  read (store_after_map h elems) (copy_ref h k)
  = with_index (command_at h elems k) k.
Proof.
  intros Hk. apply copy_at.
  eapply due_positions_bound, candidate_pool_due, Hk.
Qed.

(** Every reference in the pool is the copy of a due command. *)
Lemma pool_member cur now l :
  In l (map (copy_ref h) (candidate_pool h elems cur now)) ->
  exists k, l = copy_ref h k /\ k < List.length elems
            /\ read (store_after_map h elems) l
               = with_index (command_at h elems k) k
            /\ is_due (command_at h elems k) now = true.
Proof.
  intros Hl. apply in_map_iff in Hl. destruct Hl as [k [<- Hk]].
  apply candidate_pool_due in Hk.
  pose proof (due_positions_bound _ _ _ _ Hk) as Hbound.
  exists k. repeat split; auto using copy_at, due_positions_due.
Qed.

Lemma pool_level0 cur now :
  existsb (fun l => level_is_0 (read (store_after_map h elems) l))
          (map (copy_ref h) (candidate_pool h elems cur now))
  = existsb level_is_0 (pool_commands h elems cur now).
Proof.
  unfold pool_commands.
  rewrite (existsb_map_in _ _ (fun k => level_is_0 (command_at h elems k))).
  - symmetry. apply existsb_map_in. reflexivity.
  - intros k Hk. rewrite (pool_copy _ _ _ Hk). reflexivity.
Qed.


Lemma pool_nonempty cur now :
  due_positions h elems now <> [] ->
  map (copy_ref h) (candidate_pool h elems cur now) <> [].
Proof.
  intros Hdue Hnil. apply map_eq_nil in Hnil.
  apply candidate_pool_nil in Hnil. contradiction.
Qed.

(** [selectNextCommand] with the lists it builds written by position in
    the input array. *)
Lemma selectNextCommand_by_position commands cur now rnd :
  as_array h commands = Some elems ->
  selectNextCommand h commands cur now rnd =
  (match due_positions h elems now with
   | [] => Return null
   | _ :: _ =>
       select_from_pool (store_after_map h elems)
         (map (copy_ref h) (candidate_pool h elems cur now)) rnd
   end,
   store_after_map h elems).
Proof.
  intros Harr. unfold selectNextCommand. rewrite Harr.
  pose proof copy_at as Hread. unfold store_after_map in *.
  destruct elems as [|l0 rest] eqn:Eelems; [reflexivity|].
  rewrite <- Eelems in *.
  pose proof (map_with_index_extends elems h 0) as [Hcopies _].
  destruct (map_with_index h elems 0) as [copies hm] eqn:E.
  cbn [fst snd] in *. subst copies.
  rewrite seq_from.
  change (Nat.add (List.length (objects h))) with (copy_ref h).
  rewrite (filter_shift _ (fun k => is_due (command_at h elems k) now)).
  2:{ intros k Hk. apply in_seq in Hk. rewrite Hread by lia. reflexivity. }
  fold (due_positions h elems now).
  rewrite <- (candidate_pool_default h elems cur now).
  unfold candidate_pool.
  set (cur' := match cur with undefined => null | given => given end).
  pose proof (due_positions_bound h elems now) as Hbound.
  destruct (due_positions h elems now) as [|d ds] eqn:Ed; [reflexivity|].
  cbn [map].
  change (copy_ref h d :: map (copy_ref h) ds)
    with (map (copy_ref h) (d :: ds)).
  rewrite (filter_shift _
             (fun k => negb (strict_eq (the (Z.of_nat k)) cur'))).
  2:{ intros k Hk. rewrite Hread by (apply Hbound; exact Hk). reflexivity. }
  destruct (filter _ (d :: ds)) as [|a rest']; reflexivity.
Qed.

End WellFormedArray.

(** ** Selection *)

(** C4.  On an array of commands, whatever the current index and the
    value of the random draw in [0, 1): the call returns [null] exactly
    when no command is due, that is when every command has a
    [nextReview] that is set and after [now] (which includes the empty
    array); a returned command is due, so its [nextReview], if set, is
    not after [now]; and when the candidate pool has a command of level
    0 the call returns a command, and that command has level 0.  An
    exception is raised only when the pool has no command of level 0. *)
Theorem C4_selectNextCommand (h : heap) (commands : value) (elems : list nat)
    (currentIndex : nullable Z) (now : Z) (rnd : Q) :
  as_array h commands = Some elems ->
  well_formed h commands ->
  (0 <= rnd < 1)%Q ->
  let level0_in_pool :=
    existsb level_is_0 (pool_commands h elems currentIndex now) in
  let '(outcome, h') := selectNextCommand h commands currentIndex now rnd in
  (outcome = Return null <->
   Forall (fun l => exists t, nextReview (read h l) = the t /\ (now < t)%Z)
          elems) /\
  match outcome with
  | Return (the l) =>
      is_due (read h' l) now = true /\
      (forall t, nextReview (read h' l) = the t -> (t <= now)%Z) /\
      (if level0_in_pool then level (read h' l) = VNum 0%Z else True)
  | Return null => True
  | Return undefined => False
  | Throw _ => level0_in_pool = false
  end.
Proof.
  intros Harr Hwf Hrnd. unfold well_formed in Hwf. rewrite Harr in Hwf.
  cbv zeta. rewrite (selectNextCommand_by_position h elems Hwf _ _ _ _ Harr).
  rewrite <- due_positions_nil.
  pose proof (pool_nonempty h elems currentIndex now) as Hne.
  destruct (due_positions h elems now) as [|d ds] eqn:Ed.
  { split; [tauto | exact I]. }
  pose proof (select_from_pool_spec
                (store_after_map h elems)
                (map (copy_ref h) (candidate_pool h elems currentIndex now))
                rnd (Hne ltac:(discriminate)) Hrnd) as Hsel.
  rewrite (pool_level0 h elems Hwf) in Hsel.
  destruct (select_from_pool _ _ rnd) as [e | [ | | l]].
  - split; [|tauto]. split; [discriminate | intros H; discriminate H].
  - contradiction.
  - contradiction.
  - split; [split; [discriminate | intros H; discriminate H]|].
    destruct Hsel as [Hin Hlevel].
    destruct (pool_member h elems Hwf _ _ _ Hin) as [k [_ [_ [Hr Hdue]]]].
    assert (Hd : is_due (read (store_after_map h elems) l) now = true).
    { rewrite Hr. exact Hdue. }
    split; [exact Hd|]. split.
    + intros t Ht. unfold is_due in Hd. rewrite Ht in Hd.
      apply Z.leb_le. exact Hd.
    + destruct (existsb level_is_0 _); [|exact I].
      specialize (Hlevel eq_refl). unfold level_is_0 in Hlevel.
      destruct (level (read _ l)); try discriminate Hlevel.
      apply Z.eqb_eq in Hlevel. congruence.
Qed.

Lemma C4_selectNextCommand_witness :
  let level0_in_pool :=
    existsb level_is_0 (pool_commands sample_store [0; 1; 2] null 1000) in
  let '(outcome, h') :=
    selectNextCommand sample_store (VArray 0) null 1000 (1 # 2) in
  (outcome = Return null <->
   Forall (fun l => exists t, nextReview (read sample_store l) = the t
                              /\ (1000 < t)%Z)
          [0; 1; 2]) /\
  match outcome with
  | Return (the l) =>
      is_due (read h' l) 1000 = true /\
      (forall t, nextReview (read h' l) = the t -> (t <= 1000)%Z) /\
      (if level0_in_pool then level (read h' l) = VNum 0%Z else True)
  | Return null => True
  | Return undefined => False
  | Throw _ => level0_in_pool = false
  end.
Proof.
  apply (C4_selectNextCommand sample_store (VArray 0) [0; 1; 2] null 1000 (1 # 2)).
  - reflexivity.
  - unfold well_formed. cbn. repeat constructor.
  - split; [vm_compute; discriminate | reflexivity].
Defined.

(** ** The store after the call *)

(** C10.  The call leaves the arrays of the store and every object that
    existed before it as they were.  When it returns a value other than
    [null], the value is a reference to an object allocated by the call,
    hence none of the references in the input array; that object has the
    [keys], the [level], the [nextReview] and the other properties of
    the input command at some position [k], and [originalIndex] set to
    [k]. *)
Theorem C10_selectNextCommand_copies (h : heap) (commands : value)
    (currentIndex : nullable Z) (now : Z) (rnd : Q) :
  well_formed h commands ->
  (0 <= rnd < 1)%Q ->
  let '(outcome, h') := selectNextCommand h commands currentIndex now rnd in
  arrays h' = arrays h /\
  (forall l, l < List.length (objects h) ->
             nth_error (objects h') l = nth_error (objects h) l) /\
  match outcome with
  | Return (the l) =>
      exists elems k l0 copy,
        as_array h commands = Some elems /\
        nth_error elems k = Some l0 /\
        List.length (objects h) <= l /\
        ~ In l elems /\
        nth_error (objects h') l = Some copy /\
        keys copy = keys (read h l0) /\
        level copy = level (read h l0) /\
        nextReview copy = nextReview (read h l0) /\
        others copy = others (read h l0) /\
        originalIndex copy = the (Z.of_nat k)
  | Return null => True
  | Return undefined => False
  | Throw _ => True
  end.
Proof.
  intros Hwf Hrnd. unfold well_formed in Hwf.
  destruct (as_array h commands) as [elems|] eqn:Harr.
  2:{ unfold selectNextCommand. rewrite Harr. repeat split. }
  rewrite (selectNextCommand_by_position h elems Hwf _ _ _ _ Harr).
  destruct (map_with_index_extends elems h 0)
    as [_ [Harrays [new [Hobj Hlen]]]].
  fold (store_after_map h elems) in Harrays, Hobj.
  split; [exact Harrays|]. split.
  { intros l Hl. rewrite Hobj. apply nth_error_app1. exact Hl. }
  pose proof (pool_nonempty h elems currentIndex now) as Hne.
  destruct (due_positions h elems now) as [|d ds] eqn:Ed; [exact I|].
  pose proof (select_from_pool_spec
                (store_after_map h elems)
                (map (copy_ref h) (candidate_pool h elems currentIndex now))
                rnd (Hne ltac:(discriminate)) Hrnd) as Hsel.
  destruct (select_from_pool _ _ rnd)
    as [e | [ | | l]]; try exact I; try contradiction.
  destruct Hsel as [Hin _].
  destruct (pool_member h elems Hwf _ _ _ Hin) as [k [-> [Hk [Hr _]]]].
  exists elems, k, (nth k elems 0), (with_index (command_at h elems k) k).
  split; [reflexivity|].
  split; [apply nth_error_nth'; exact Hk|].
  unfold copy_ref at 1 2. split; [lia|]. split.
  { intros Hin'. rewrite Forall_forall in Hwf. apply Hwf in Hin'. lia. }
  split; [apply (copy_allocated h elems Hwf k Hk)|].
  unfold command_at. repeat split.
Qed.

Lemma C10_selectNextCommand_copies_witness :
  let '(outcome, h') :=
    selectNextCommand sample_store (VArray 0) (the 1%Z) 1000 (1 # 2) in
  arrays h' = arrays sample_store /\
  (forall l, l < List.length (objects sample_store) ->
             nth_error (objects h') l = nth_error (objects sample_store) l) /\
  match outcome with
  | Return (the l) =>
      exists elems k l0 copy,
        as_array sample_store (VArray 0) = Some elems /\
        nth_error elems k = Some l0 /\
        List.length (objects sample_store) <= l /\
        ~ In l elems /\
        nth_error (objects h') l = Some copy /\
        keys copy = keys (read sample_store l0) /\
        level copy = level (read sample_store l0) /\
        nextReview copy = nextReview (read sample_store l0) /\
        others copy = others (read sample_store l0) /\
        originalIndex copy = the (Z.of_nat k)
  | Return null => True
  | Return undefined => False
  | Throw _ => True
  end.
Proof.
  apply (C10_selectNextCommand_copies sample_store (VArray 0) (the 1%Z) 1000 (1 # 2)).
  - unfold well_formed. cbn. repeat constructor.
  - split; [vm_compute; discriminate | reflexivity].
Defined.

(** ** Type errors *)





End QueueProperties.

(* ===================================================================== *)
(** * Further properties of the SRS engine *)
(* ===================================================================== *)

Section SRSHistories.

Import SRS.

Lemma answer_all_app cmd xs ys :
  answer_all cmd (xs ++ ys) = answer_all (answer_all cmd xs) ys.
Proof.
  revert cmd. induction xs as [|[c t] xs IH]; intros cmd; cbn; auto.
Qed.

Lemma updateCommandState_failures cmd isCorrect t :
  failures (updateCommandState cmd isCorrect t) =
  the (nullish_or (failures cmd) 0 + (if isCorrect then 0 else 1)).
Proof.
  unfold updateCommandState, SUCCESSES_TO_ADVANCE, MAX_LEVEL.
  destruct isCorrect; [|reflexivity].
  destruct ((3 <=? nullish_or (successes cmd) 0 + 1)
            && (nullish_or (level cmd) 0 <? 5)); cbn; f_equal; lia.
Qed.

Lemma updateCommandState_times cmd isCorrect t :
  lastSeen (updateCommandState cmd isCorrect t) = the t /\
  exists l, level (updateCommandState cmd isCorrect t) = the l /\
            nextReview (updateCommandState cmd isCorrect t)
            = the (calculateNextReview l t).
Proof.
  unfold updateCommandState, SUCCESSES_TO_ADVANCE, MAX_LEVEL.
  destruct isCorrect.
  - destruct ((3 <=? nullish_or (successes cmd) 0 + 1)
              && (nullish_or (level cmd) 0 <? 5)); cbn;
      (split; [reflexivity | eexists; split; reflexivity]).
  - cbn. split; [reflexivity | eexists; split; reflexivity].
Qed.

(** The interval of a level is never negative. *)
Lemma interval_of_nonneg lvl : 0 <= interval_of lvl.
Proof.
  destruct lvl as [| |n]; cbn; try lia.
  unfold index. destruct (Z.ltb_spec n 0); [cbn; lia|].
  destruct (Z.to_nat n) as [|[|[|[|[|[|k]]]]]]; cbn; try lia.
  destruct k; cbn; lia.
Qed.

Lemma calculateNextReview_after lvl t : t <= calculateNextReview lvl t.
Proof.
  unfold calculateNextReview, millisecondsUntilReview.
  destruct (lvl =? 0); [lia|].
  pose proof (interval_of_nonneg (the lvl)). lia.
Qed.

(** X1.  Whatever the answers and their times, a command that starts at
    a level in 0..5 stays at a level in 0..5, and its failure counter
    grows by exactly the number of incorrect answers.  After the last
    answer, [lastSeen] is its time and [nextReview] is not before it. *)
Theorem answers_keep_state_valid (cmd : command) (answers : list (bool * Z))
    (isCorrect : bool) (t : Z) :
  0 <= nullish_or (level cmd) 0 <= 5 ->
  let cmd' := answer_all cmd (answers ++ [(isCorrect, t)]) in
  (exists l, level cmd' = the l /\ 0 <= l <= 5) /\
  failures cmd'
  = the (nullish_or (failures cmd) 0
         + incorrect_answers (answers ++ [(isCorrect, t)])) /\
  lastSeen cmd' = the t /\
  (exists r, nextReview cmd' = the r /\ t <= r).
Proof.
  intros Hl. cbv zeta.
  assert (Hinv : forall answers cmd,
    0 <= nullish_or (level cmd) 0 <= 5 ->
    0 <= nullish_or (level (answer_all cmd answers)) 0 <= 5 /\
    nullish_or (failures (answer_all cmd answers)) 0
    = nullish_or (failures cmd) 0 + incorrect_answers answers).
  { clear. induction answers as [|[c t] answers IH]; intros cmd Hl.
    - cbn. unfold incorrect_answers. cbn. split; [exact Hl | lia].
    - cbn [answer_all].
      destruct (IH (updateCommandState cmd c t)) as [H1 H2].
      { rewrite updateCommandState_level. cbn.
        destruct c; [|lia].
        destruct (3 <=? nullish_or (successes cmd) 0 + 1); cbn; [|lia].
        destruct (Z.ltb_spec (nullish_or (level cmd) 0) 5); lia. }
      split; [exact H1|].
      rewrite H2, updateCommandState_failures. cbn.
      unfold incorrect_answers. cbn [filter fst].
      destruct c; cbn [negb List.length]; lia. }
  rewrite answer_all_app. cbn [answer_all].
  destruct (Hinv answers cmd Hl) as [Hl' Hf'].
  set (mid := answer_all cmd answers) in *.
  destruct (updateCommandState_times mid isCorrect t) as [Hseen [l [Hlev Hnext]]].
  repeat split.
  - exists l. split; [exact Hlev|].
    pose proof (updateCommandState_level mid isCorrect t) as Hstep.
    rewrite Hlev in Hstep. injection Hstep as ->.
    destruct isCorrect; [|lia].
    destruct (3 <=? nullish_or (successes mid) 0 + 1); cbn; [|lia].
    destruct (Z.ltb_spec (nullish_or (level mid) 0) 5); lia.
  - rewrite updateCommandState_failures, Hf'. f_equal.
    unfold incorrect_answers. rewrite filter_app, length_app. cbn.
    destruct isCorrect; cbn; lia.
  - exact Hseen.
  - exists (calculateNextReview l t). split; [exact Hnext|].
    apply calculateNextReview_after.
Qed.

Lemma answers_keep_state_valid_witness :
  let cmd := mkCommand "dd" (the 4) (the 2) (the 1) null null in
  let cmd' := answer_all cmd ([(true, 10); (false, 20)] ++ [(true, 30)]) in
  (exists l, level cmd' = the l /\ 0 <= l <= 5) /\
  failures cmd'
  = the (nullish_or (failures cmd) 0
         + incorrect_answers ([(true, 10); (false, 20)] ++ [(true, 30)])) /\
  lastSeen cmd' = the 30 /\
  (exists r, nextReview cmd' = the r /\ 30 <= r).
Proof.
  apply (answers_keep_state_valid
           (mkCommand "dd" (the 4) (the 2) (the 1) null null)
           [(true, 10); (false, 20)] true 30).
  cbn. lia.
Defined.

(** X2.  A newly initialized command that is answered correctly [n]
    times in a row is at level [min(5, n / 3)]: every third answer
    advances it, and the 15th takes it to level 5, where it stays.  Its
    successes count the answers since the last advance, its failures
    stay 0. *)
Theorem correct_streak_from_new (cmd : command) (now : Z) (times : list Z) :
  let n := Z.of_nat (List.length times) in
  let cmd' := answer_all (initializeCommandState cmd now)
                         (map (fun t => (true, t)) times) in
  level cmd' = the (Z.min 5 (n / 3)) /\
  successes cmd' = the (if n <? 15 then n mod 3 else n - 15) /\
  failures cmd' = the 0.
Proof.
  cbv zeta. induction times as [|t times IH] using rev_ind.
  - cbn. repeat split.
  - rewrite map_app, answer_all_app, length_app. cbn [map answer_all List.length].
    destruct IH as [Hl [Hs Hf]].
    set (mid := answer_all (initializeCommandState cmd now)
                           (map (fun t => (true, t)) times)) in *.
    set (n := Z.of_nat (List.length times)) in *.
    replace (Z.of_nat (List.length times + 1)) with (n + 1) by (unfold n; lia).
    assert (Hn : 0 <= n) by (unfold n; lia).
    rewrite updateCommandState_level, updateCommandState_successes,
      updateCommandState_failures, Hl, Hs, Hf.
    cbn [nullish_or].
    pose proof (Z.div_mod n 3 ltac:(lia)) as Hdm.
    pose proof (Z.mod_pos_bound n 3 ltac:(lia)) as Hmod.
    pose proof (Z.div_mod (n + 1) 3 ltac:(lia)) as Hdm1.
    pose proof (Z.mod_pos_bound (n + 1) 3 ltac:(lia)) as Hmod1.
    destruct (Z.ltb_spec n 15) as [Hlt | Hge].
    + destruct (Z.leb_spec 3 (n mod 3 + 1)) as [H3 | H3];
        destruct (Z.ltb_spec (Z.min 5 (n / 3)) 5) as [H5 | H5];
        destruct (Z.ltb_spec (n + 1) 15) as [H15 | H15];
        cbn [andb]; repeat split; f_equal; lia.
    + destruct (Z.leb_spec 3 (n - 15 + 1)) as [H3 | H3];
        destruct (Z.ltb_spec (Z.min 5 (n / 3)) 5) as [H5 | H5];
        destruct (Z.ltb_spec (n + 1) 15) as [H15 | H15];
        cbn [andb]; repeat split; f_equal; lia.
Qed.

(** Replaces the interval of a literal level by its value. *)
Ltac eval_intervals :=
  repeat match goal with
  | |- context [interval_of (the ?k)] =>
      let v := eval vm_compute in (interval_of (the k)) in
      change (interval_of (the k)) with v
  end.

(** The levels of the table, one by one. *)
Lemma level_cases (l : Z) :
  0 <= l <= 5 -> l = 0 \/ l = 1 \/ l = 2 \/ l = 3 \/ l = 4 \/ l = 5.
Proof. lia. Qed.

Lemma index_outside {A : Type} (arr : list A) (i : Z) :
  i < 0 \/ Z.of_nat (List.length arr) <= i -> index arr i = undefined.
Proof.
  intros H. unfold index. destruct (Z.ltb_spec i 0); [reflexivity|].
  destruct (nth_error arr (Z.to_nat i)) eqn:E; [|reflexivity].
  assert (Hlt : (Z.to_nat i < List.length arr)%nat).
  { apply nth_error_Some. rewrite E. discriminate. }
  lia.
Qed.

Lemma calculateNextReview_interval (l t : Z) :
  calculateNextReview l t = t + 2500 * interval_of (the l).
Proof.
  unfold calculateNextReview, millisecondsUntilReview.
  destruct (Z.eqb_spec l 0) as [-> | Hne]; [cbn; lia | lia].
Qed.

Lemma interval_outside (l : Z) : l < 0 \/ 5 < l -> interval_of (the l) = 0.
Proof.
  intros Hl. unfold interval_of. rewrite index_outside; [reflexivity|].
  cbn. lia.
Qed.

Lemma calculateNextReview_late (l t : Z) :
  0 < l <= 5 -> t + 7500 <= calculateNextReview l t.
Proof.
  intros Hl. rewrite calculateNextReview_interval.
  destruct (level_cases l ltac:(lia)) as [-> | [-> | [-> | [-> | [-> | ->]]]]];
    eval_intervals; lia.
Qed.

(** X3.  The next review is [2500 * interval] milliseconds after the
    answer: at once for level 0 and for a level outside the table, and
    later the higher the level is within the table. *)
Theorem review_spacing (l1 l2 t : Z) :
  l1 <= l2 <= 5 ->
  calculateNextReview l1 t = t + 2500 * interval_of (the l1) /\
  calculateNextReview l1 t <= calculateNextReview l2 t /\
  (0 < l1 -> t + 7500 <= calculateNextReview l1 t) /\
  (forall l, l <= 0 \/ 5 < l -> calculateNextReview l t = t).
Proof.
  intros Hl.
  split; [apply calculateNextReview_interval|].
  split; [|split].
  - rewrite !calculateNextReview_interval.
    destruct (Z.ltb_spec l1 0) as [Hneg | Hpos].
    + rewrite (interval_outside l1) by lia.
      pose proof (interval_of_nonneg (the l2)). lia.
    + destruct (level_cases l1 ltac:(lia)) as [-> | [-> | [-> | [-> | [-> | ->]]]]];
        destruct (level_cases l2 ltac:(lia)) as [-> | [-> | [-> | [-> | [-> | ->]]]]];
        eval_intervals; lia.
  - intros Hpos. apply calculateNextReview_late. lia.
  - intros l [Hle | Hgt].
    + destruct (Z.eqb_spec l 0) as [-> | Hne]; [reflexivity|].
      rewrite calculateNextReview_interval, (interval_outside l) by lia. lia.
    + rewrite calculateNextReview_interval, (interval_outside l) by lia. lia.
Qed.

Lemma review_spacing_witness :
  calculateNextReview 2 1000 = 1000 + 2500 * interval_of (the 2) /\
  calculateNextReview 2 1000 <= calculateNextReview 4 1000 /\
  (0 < 2 -> 1000 + 7500 <= calculateNextReview 2 1000) /\
  (forall l, l <= 0 \/ 5 < l -> calculateNextReview l 1000 = 1000).
Proof. apply (review_spacing 2 4 1000). lia. Defined.

(** X4.  On a state that [updateCommandState] has just produced, from a
    level in 0..5 and at a time that is not negative, [shouldReviewCommand]
    returns a boolean, and it is [true] exactly when the level is 0, or
    enough commands have passed, or [nextReview] has been reached: the
    [nextReview] of such a state is never a falsy number at a level
    above 0. *)
Theorem review_of_updated_state (cmd : command) (isCorrect : bool)
    (t commandsSinceLastSeen now : Z) :
  0 <= nullish_or (level cmd) 0 <= 5 ->
  0 <= t ->
  let cmd' := updateCommandState cmd isCorrect t in
  exists b,
    shouldReviewCommand cmd' commandsSinceLastSeen now = VBool b /\
    (b = true <-> due_as_specified cmd' commandsSinceLastSeen now).
Proof.
  intros Hl Ht. cbv zeta.
  destruct (updateCommandState_times cmd isCorrect t) as [_ [l [Hlev Hnext]]].
  assert (Hrange : 0 <= l <= 5).
  { pose proof (updateCommandState_level cmd isCorrect t) as Hstep.
    rewrite Hlev in Hstep. injection Hstep as ->.
    destruct isCorrect; [|lia].
    destruct (3 <=? nullish_or (successes cmd) 0 + 1); cbn; [|lia].
    destruct (Z.ltb_spec (nullish_or (level cmd) 0) 5); lia. }
  set (cmd' := updateCommandState cmd isCorrect t) in *.
  unfold shouldReviewCommand, due_as_specified. rewrite Hlev, Hnext. cbn [strict_eq].
  destruct (Z.eqb_spec l 0) as [-> | Hne].
  - exists true. split; [reflexivity|]. split; [intros _; left; reflexivity | reflexivity].
  - pose proof (calculateNextReview_late l t ltac:(lia)) as Hlate.
    set (r := calculateNextReview l t) in *.
    unfold or_else, and_then. cbn [of_nullable truthy].
    destruct (Z.eqb_spec r 0) as [H0 | H0]; [lia|]. cbn [negb].
    exists ((interval_of (the l) <=? commandsSinceLastSeen) || (r <=? now))%bool.
    split.
    + destruct (interval_of (the l) <=? commandsSinceLastSeen); reflexivity.
    + rewrite orb_true_iff, Z.leb_le, Z.leb_le. split.
      * intros [H | H]; [right; left; exact H |].
        right. right. exists r. split; [reflexivity | exact H].
      * intros [H | [H | [r' [Hr' Hle]]]].
        -- congruence.
        -- left. exact H.
        -- right. congruence.
Qed.

Lemma review_of_updated_state_witness :
  let cmd' := updateCommandState
                (mkCommand "dd" (the 1) (the 2) (the 0) null null) true 1000 in
  exists b,
    shouldReviewCommand cmd' 4 2000 = VBool b /\
    (b = true <-> due_as_specified cmd' 4 2000).
Proof.
  apply (review_of_updated_state
           (mkCommand "dd" (the 1) (the 2) (the 0) null null) true 1000 4 2000).
  - cbn. lia.
  - lia.
Defined.

Lemma round_comp (q1 q2 : Q) : (q1 == q2)%Q -> round q1 = round q2.
Proof. intros H. unfold round. apply Qfloor_comp. rewrite H. reflexivity. Qed.

Lemma round_bounds (q : Q) (lo hi : Z) :
  (inject_Z lo <= q <= inject_Z hi)%Q -> lo <= round q <= hi.
Proof.
  intros [Hlo Hhi]. unfold round. split.
  - rewrite <- (Qfloor_Z lo). apply Qfloor_resp_le.
    apply Qle_trans with q; [exact Hlo|].
    rewrite <- (Qplus_0_r q) at 1. apply Qplus_le_r. discriminate.
  - assert (H : (Qfloor (q + (1 # 2)) < hi + 1)%Z); [|lia].
    rewrite Zlt_Qlt.
    apply Qle_lt_trans with (q + (1 # 2))%Q; [apply Qfloor_le|].
    rewrite inject_Z_plus.
    apply Qle_lt_trans with (inject_Z hi + (1 # 2))%Q.
    + apply Qplus_le_l. exact Hhi.
    + apply Qplus_lt_r. reflexivity.
Qed.

(** X5.  [calculateMastery] of non-negative counters is a percentage
    between 0 and 100; it is 100 when there are successes and no
    failures, and 0 when there are no successes.  After every answer
    either the answer was correct and left the level as it was, or the
    mastery is 0: a failure and an advance both reset it. *)
Theorem mastery_percentage (cmd : command) (isCorrect : bool) (t : Z) :
  0 <= nullish_or (successes cmd) 0 ->
  0 <= nullish_or (failures cmd) 0 ->
  0 <= calculateMastery cmd <= 100 /\
  (0 < nullish_or (successes cmd) 0 -> nullish_or (failures cmd) 0 = 0 ->
   calculateMastery cmd = 100) /\
  (nullish_or (successes cmd) 0 = 0 -> calculateMastery cmd = 0) /\
  ((isCorrect = true /\
    level (updateCommandState cmd isCorrect t) = the (nullish_or (level cmd) 0))
   \/ calculateMastery (updateCommandState cmd isCorrect t) = 0).
Proof.
  intros Hs Hf.
  assert (Hzero : forall c, nullish_or (successes c) 0 = 0 ->
                            calculateMastery c = 0).
  { intros c H. unfold calculateMastery. rewrite H. cbn [Z.add].
    destruct (nullish_or (failures c) 0 =? 0); [reflexivity|].
    rewrite (round_comp _ 0); [reflexivity|]. unfold Qdiv. ring. }
  split; [|split; [|split]].
  - unfold calculateMastery.
    set (s := nullish_or (successes cmd) 0) in *.
    set (f := nullish_or (failures cmd) 0) in *.
    destruct (Z.eqb_spec (s + f) 0) as [H0 | H0]; [lia|].
    apply round_bounds.
    assert (Hpos : (0 < inject_Z (s + f))%Q).
    { rewrite <- (Zlt_Qlt 0). lia. }
    assert (Hq : (0 <= inject_Z s / inject_Z (s + f) <= 1)%Q).
    { split.
      - apply Qle_shift_div_l; [exact Hpos|]. rewrite Qmult_0_l.
        rewrite <- (Zle_Qle 0). exact Hs.
      - apply Qle_shift_div_r; [exact Hpos|]. rewrite Qmult_1_l.
        rewrite <- Zle_Qle. lia. }
    destruct Hq as [Hq0 Hq1]. split.
    + apply Qmult_le_0_compat; [exact Hq0 | discriminate].
    + change (inject_Z 100) with (1 * 100)%Q.
      apply Qmult_le_compat_r; [exact Hq1 | discriminate].
  - intros Hpos H0. unfold calculateMastery. rewrite H0, Z.add_0_r.
    destruct (Z.eqb_spec (nullish_or (successes cmd) 0) 0) as [|Hne]; [lia|].
    rewrite (round_comp _ 100); [reflexivity|]. field.
    intros Hq. apply Hne. apply inject_Z_injective. exact Hq.
  - apply Hzero.
  - destruct isCorrect.
    + pose proof (updateCommandState_level cmd true t) as Hlev.
      pose proof (updateCommandState_successes cmd true t) as Hsuc.
      cbn in Hlev, Hsuc.
      destruct ((3 <=? nullish_or (successes cmd) 0 + 1)
                && (nullish_or (level cmd) 0 <? 5)).
      * right. apply Hzero. rewrite Hsuc. reflexivity.
      * left. split; [reflexivity | exact Hlev].
    + right. apply Hzero. rewrite updateCommandState_successes. reflexivity.
Qed.

Lemma mastery_percentage_witness :
  let cmd := mkCommand "dd" (the 2) (the 2) (the 1) null null in
  0 <= calculateMastery cmd <= 100 /\
  (0 < nullish_or (successes cmd) 0 -> nullish_or (failures cmd) 0 = 0 ->
   calculateMastery cmd = 100) /\
  (nullish_or (successes cmd) 0 = 0 -> calculateMastery cmd = 0) /\
  ((true = true /\
    level (updateCommandState cmd true 1000) = the (nullish_or (level cmd) 0))
   \/ calculateMastery (updateCommandState cmd true 1000) = 0).
Proof.
  apply (mastery_percentage
           (mkCommand "dd" (the 2) (the 2) (the 1) null null) true 1000).
  - cbn. lia.
  - cbn. lia.
Defined.

(** X6.  [getLevelName] answers "UNKNOWN" exactly for the levels outside
    0..5, negative ones included; inside the range the names are
    pairwise different, and the name of each level of [SRS_LEVELS] is its
    key there. *)
Theorem level_names (l : Z) :
  (getLevelName l = "UNKNOWN"%string <-> l < 0 \/ 5 < l) /\
  NoDup LEVEL_NAMES /\
  map (fun entry => getLevelName (snd entry)) SRS_LEVELS = map fst SRS_LEVELS.
Proof.
  split; [|split; [|reflexivity]].
  - split.
    + intros H. destruct (Z.ltb_spec l 0) as [|H0]; [left; assumption|].
      destruct (Z.ltb_spec 5 l) as [|H5]; [right; assumption|].
      destruct (level_cases l ltac:(lia)) as [-> | [-> | [-> | [-> | [-> | ->]]]]];
        discriminate H.
    + intros H. unfold getLevelName. rewrite index_outside; [reflexivity|].
      cbn. lia.
  - repeat constructor; cbn; intuition discriminate.
Qed.

End SRSHistories.

(* ===================================================================== *)
(** * Further properties of the timer *)
(* ===================================================================== *)

Section TimerLifecycle.

Import Timer.
Local Open Scope Q_scope.

(** [start] is its assignments followed by the initial tick. *)
Lemma start_started now now' t :
  start now now' t =
  if isRunning t && negb (isPaused t) then t else tick now' (started now t).
Proof. unfold start, started. destruct (isPaused t); reflexivity. Qed.

Lemma tick_flags now t :
  isRunning t = true -> isPaused t = false ->
  let r := Qmax 0 (timeLimit t - seconds_since (startTime t) now
                   - elapsedBeforePause t) in
  (Qle_bool r 0 = true /\
   intervalId (tick now t) = false /\ isRunning (tick now t) = false /\
   isPaused (tick now t) = false /\ remainingTime (tick now t) = 0) \/
  (Qle_bool r 0 = false /\
   intervalId (tick now t) = intervalId t /\ isRunning (tick now t) = true /\
   isPaused (tick now t) = false /\ remainingTime (tick now t) = r).
Proof.
  intros Hr Hp. cbv zeta. unfold tick, updateRemaining. rewrite Hr, Hp. cbn.
  destruct (Qle_bool _ 0); [left | right]; cbn; repeat split; auto.
Qed.

Lemma started_flags now t :
  isRunning (started now t) = true /\ isPaused (started now t) = false /\
  intervalId (started now t) = true.
Proof. unfold started. destruct (isPaused t); repeat split. Qed.

Lemma step_scheduled_ok t c : scheduled_ok t -> scheduled_ok (step t c).
Proof.
  unfold scheduled_ok, isActive. intros [Hi Hp].
  destruct c as [now now' | now | | seconds | now | now]; cbn [step].
  - rewrite start_started.
    destruct (isRunning t && negb (isPaused t)) eqn:Ea; [split; congruence|].
    destruct (started_flags now t) as [Hr [Hq Hid]].
    destruct (tick_flags now' (started now t) Hr Hq)
      as [[_ [-> [-> [-> _]]]] | [_ [-> [-> [-> _]]]]]; rewrite ?Hid; split; reflexivity.
  - unfold pause. destruct (isRunning t) eqn:Er, (isPaused t) eqn:Eq;
      cbn in *; rewrite ?Er, ?Eq; cbn; split; congruence.
  - cbn. split; reflexivity.
  - cbn. split; assumption.
  - unfold getRemaining, updateRemaining.
    destruct (isRunning t) eqn:Er, (isPaused t) eqn:Eq;
      cbn in *; rewrite ?Er, ?Eq; cbn; split; congruence.
  - destruct (intervalId t) eqn:Eid; [|split; congruence].
    symmetry in Hi. apply andb_prop in Hi. destruct Hi as [Hr Hq].
    apply negb_true_iff in Hq.
    destruct (tick_flags now t Hr Hq)
      as [[_ [-> [-> [-> _]]]] | [_ [-> [-> [-> _]]]]]; rewrite ?Eid; split; reflexivity.
Qed.

Lemma run_scheduled_ok calls : forall t,
  scheduled_ok t -> scheduled_ok (run t calls).
Proof.
  induction calls as [|c calls IH]; intros t H; cbn; [exact H|].
  apply IH, step_scheduled_ok, H.
Qed.

(** X7.  Whatever is done to a timer, an interval is scheduled exactly
    while it is active (running and not paused): [start] never leaves
    two, [pause], [stop] and expiry leave none.  A timer is never paused
    without running. *)
Theorem one_interval_while_active (limit : Q) (calls : list call) :
  let t := run (createTimer limit) calls in
  intervalId t = isActive t /\
  (isPaused t && negb (isRunning t))%bool = false /\
  (isActive t = true \/ forall now, step t (IntervalFires now) = t).
Proof.
  cbv zeta.
  assert (H : scheduled_ok (run (createTimer limit) calls)).
  { apply run_scheduled_ok. split; reflexivity. }
  destruct H as [Hi Hp]. split; [exact Hi|]. split; [exact Hp|].
  destruct (isActive _) eqn:Ea; [left; reflexivity|].
  right. intros now. cbn [step]. rewrite Hi. reflexivity.
Qed.

(** X8.  The remaining time read before a [pause] is what every read
    returns while the timer stays paused, however late: pausing loses no
    time and the clock does not move a paused timer. *)
Theorem pause_keeps_remaining (t : timer) (now paused_at later : Z)
    (reads : list Z) :
  let before := fst (getRemaining now t) in
  let paused := pause paused_at (snd (getRemaining now t)) in
  fst (getRemaining later paused) = before /\
  fst (getRemaining later (run paused (map GetRemaining reads))) = before.
Proof.
  cbv zeta.
  assert (Hstored : remainingTime (snd (getRemaining now t))
                    = fst (getRemaining now t)).
  { unfold getRemaining, updateRemaining.
    destruct (isPaused t); [reflexivity|].
    destruct (negb (isRunning t) || false); reflexivity. }
  set (t1 := snd (getRemaining now t)) in *.
  assert (Hread : forall t2 at_,
    (isPaused t2 = true \/ isRunning t2 = false) ->
    getRemaining at_ t2 = (remainingTime t2, t2)).
  { intros t2 at_ H. unfold getRemaining, updateRemaining.
    destruct (isPaused t2); [reflexivity|].
    destruct H as [H | ->]; [discriminate H | reflexivity]. }
  assert (Hidle : isPaused (pause paused_at t1) = true
                  \/ isRunning (pause paused_at t1) = false).
  { unfold pause. destruct (isRunning t1) eqn:Er, (isPaused t1) eqn:Eq; cbn;
      rewrite ?Er, ?Eq; auto. }
  assert (Hrem : remainingTime (pause paused_at t1) = remainingTime t1).
  { unfold pause. destruct (negb (isRunning t1) || isPaused t1); reflexivity. }
  assert (Hrun : run (pause paused_at t1) (map GetRemaining reads)
                 = pause paused_at t1).
  { induction reads as [|r reads IH]; [reflexivity|].
    cbn [map run fold_left step]. rewrite (Hread _ r Hidle). exact IH. }
  rewrite Hrun, (Hread _ later Hidle). cbn [fst].
  rewrite Hrem, Hstored. split; reflexivity.
Qed.

(** X9.  The time spent paused does not count.  For an active timer
    that is paused and later resumed, the remaining time read after the
    resumption is the total time minus the time that had elapsed at the
    pause minus the time since the resumption, or 0 if that is negative:
    it does not depend on how long the pause lasted. *)
Theorem paused_time_not_counted (t : timer) (paused_at resumed_at tick_at now : Z) :
  isActive t = true ->
  (tick_at <= now)%Z ->
  fst (getRemaining now (start resumed_at tick_at (pause paused_at t)))
  == Qmax 0 (timeLimit t
             - (elapsedBeforePause t + seconds_since (startTime t) paused_at)
             - seconds_since (the resumed_at) now).
Proof.
  unfold isActive. intros Ha Hle. apply andb_prop in Ha.
  destruct Ha as [Hr Hp]. apply negb_true_iff in Hp.
  assert (Hpause : pause paused_at t =
    {| timeLimit := timeLimit t; intervalId := false;
       startTime := startTime t; remainingTime := remainingTime t;
       isRunning := true; isPaused := true; pausedAt := the paused_at;
       elapsedBeforePause :=
         elapsedBeforePause t + seconds_since (startTime t) paused_at |}).
  { unfold pause. rewrite Hr, Hp. reflexivity. }
  rewrite Hpause, start_started. cbn [isRunning isPaused andb negb].
  set (spent := elapsedBeforePause t + seconds_since (startTime t) paused_at).
  unfold started. cbn [isPaused timeLimit remainingTime pausedAt elapsedBeforePause].
  match goal with |- context [tick tick_at ?x] => set (t1 := x) end.
  destruct (tick_flags tick_at t1 eq_refl eq_refl)
    as [[Hexp [_ [Hrun [Hpa Hrem]]]] | [Hexp [_ [Hrun [Hpa Hrem]]]]].
  - unfold getRemaining, updateRemaining. rewrite Hpa, Hrun. cbn [negb orb fst].
    rewrite Hrem. apply Qle_bool_iff in Hexp. cbn in Hexp.
    symmetry. apply Q.max_l.
    apply Qle_trans with (timeLimit t - seconds_since (the resumed_at) tick_at - spent);
      [|apply Qle_trans with (2 := Hexp); apply Q.le_max_r].
    assert (Hmono : seconds_since (the resumed_at) tick_at
                    <= seconds_since (the resumed_at) now).
    { unfold seconds_since. cbn [nullish_or].
      apply Qmult_le_compat_r; [|discriminate].
      rewrite <- Zle_Qle. lia. }
    lra.
  - assert (Ht1 : tick tick_at t1 =
      {| timeLimit := timeLimit t; intervalId := true;
         startTime := the resumed_at;
         remainingTime := Qmax 0 (timeLimit t
                                  - seconds_since (the resumed_at) tick_at - spent);
         isRunning := true; isPaused := false; pausedAt := the paused_at;
         elapsedBeforePause := spent |}).
    { unfold tick, updateRemaining. cbn [isRunning isPaused negb orb t1].
      cbn in Hexp. subst t1.
      cbn [timeLimit startTime elapsedBeforePause intervalId pausedAt].
      rewrite Hexp. reflexivity. }
    rewrite Ht1. unfold getRemaining, updateRemaining. cbn.
    apply Q.max_compat; [reflexivity|]. ring.
Qed.

Lemma paused_time_not_counted_witness :
  fst (getRemaining 9500
         (start 9000 9000 (pause 400 (start 0 0 (createTimer 2)))))
  == Qmax 0 (timeLimit (start 0 0 (createTimer 2))
             - (elapsedBeforePause (start 0 0 (createTimer 2))
                + seconds_since (startTime (start 0 0 (createTimer 2))) 400)
             - seconds_since (the 9000%Z) 9500).
Proof.
  apply (paused_time_not_counted (start 0 0 (createTimer 2)) 400 9000 9000 9500).
  - reflexivity.
  - lia.
Defined.

(** ** Callbacks *)

Lemma tick_notifies_ordered now t b rest :
  complete_after_last_tick b (tick_notifies now t ++ rest)
  = complete_after_last_tick false rest.
Proof.
  unfold tick_notifies. cbn.
  destruct (Qle_bool (fst (updateRemaining now t)) 0); reflexivity.
Qed.

Lemma trace_ordered calls : forall t,
  complete_after_last_tick false (trace t calls) = true.
Proof.
  induction calls as [|c calls IH]; intros t; [reflexivity|].
  cbn [trace]. destruct c; cbn [notifies]; try apply IH.
  - destruct (isRunning t && negb (isPaused t)); [apply IH|].
    rewrite tick_notifies_ordered. apply IH.
  - destruct (intervalId t); [|apply IH].
    rewrite tick_notifies_ordered. apply IH.
Qed.

Lemma completions_app xs ys :
  completions (xs ++ ys) = (completions xs + completions ys)%nat.
Proof. unfold completions. rewrite filter_app, length_app. reflexivity. Qed.

(** A tick of an active timer completes exactly when it stops it. *)
Lemma tick_completes now t :
  isRunning t = true -> isPaused t = false ->
  (completions (tick_notifies now t) = 1%nat /\ isRunning (tick now t) = false)
  \/ (completions (tick_notifies now t) = 0%nat /\ isRunning (tick now t) = true).
Proof.
  intros Hr Hp.
  destruct (tick_flags now t Hr Hp) as [[He [_ [Hrun _]]] | [He [_ [Hrun _]]]];
    [left | right]; (split; [|exact Hrun]);
    unfold tick_notifies, updateRemaining; rewrite Hr, Hp; cbn [negb orb fst];
    rewrite He; reflexivity.
Qed.

Lemma completions_bound calls : forall t,
  scheduled_ok t ->
  (completions (trace t calls) + (if isRunning (run t calls) then 1 else 0)
   <= starts calls + (if isRunning t then 1 else 0))%nat.
Proof.
  induction calls as [|c calls IH]; intros t Hok.
  - cbn. lia.
  - cbn [trace run fold_left]. fold (run (step t c) calls).
    specialize (IH (step t c) (step_scheduled_ok t c Hok)).
    rewrite completions_app.
    assert (Hstep : (completions (notifies t c)
                     + (if isRunning (step t c) then 1 else 0)
                     <= (if is_start c then 1 else 0)
                        + (if isRunning t then 1 else 0))%nat).
    { destruct Hok as [Hi Hp]. unfold isActive in Hi.
      destruct c as [now now' | now | | seconds | now | now];
        cbn [notifies step is_start].
      - rewrite start_started.
        destruct (isRunning t && negb (isPaused t)); [cbn; lia|].
        destruct (started_flags now t) as [Hr [Hq _]].
        destruct (tick_completes now' (started now t) Hr Hq)
          as [[-> ->] | [-> ->]]; destruct (isRunning t); lia.
      - unfold pause. destruct (negb (isRunning t) || isPaused t); cbn; lia.
      - cbn. destruct (isRunning t); lia.
      - cbn. lia.
      - unfold getRemaining, updateRemaining.
        destruct (isPaused t); [cbn; lia|].
        destruct (negb (isRunning t) || false); cbn; lia.
      - destruct (intervalId t); [|cbn; lia].
        symmetry in Hi. apply andb_prop in Hi. destruct Hi as [Hr Hq].
        apply negb_true_iff in Hq.
        destruct (tick_completes now t Hr Hq) as [[-> ->] | [-> ->]];
          rewrite Hr; lia. }
    unfold starts in *. cbn [filter].
    destruct (is_start c); cbn [List.length] in *; lia.
Qed.

(** X10.  Over any history of a timer, [onComplete] is called at most
    once per call of [start]; every call of [onComplete] comes directly
    after a call of [onTick] that reported no time left; and from a
    [stop] until the next [start] no callback is called at all. *)
Theorem complete_once_per_start (limit : Q) (calls after : list call) :
  forallb leaves_stopped after = true ->
  (completions (trace (createTimer limit) calls) <= starts calls)%nat /\
  complete_after_last_tick false (trace (createTimer limit) calls) = true /\
  trace (stop (run (createTimer limit) calls)) after = [].
Proof.
  intros Hafter. split; [|split].
  - pose proof (completions_bound calls (createTimer limit)
                  ltac:(split; reflexivity)) as H.
    cbn [isRunning createTimer] in H.
    destruct (isRunning (run (createTimer limit) calls)); lia.
  - apply trace_ordered.
  - generalize (run (createTimer limit) calls). intros t.
    induction after as [|c after IH]; [reflexivity|].
    cbn in Hafter. apply andb_prop in Hafter. destruct Hafter as [Hc Hafter].
    cbn [trace].
    assert (Hs : step (stop t) c = stop t /\ notifies (stop t) c = []).
    { destruct c; try discriminate Hc; split; reflexivity. }
    destruct Hs as [-> ->]. apply IH. exact Hafter.
Qed.

Lemma complete_once_per_start_witness :
  (completions (trace (createTimer 1)
                  [Start 0 0; IntervalFires 500; IntervalFires 1000;
                   IntervalFires 1010; Start 2000 2000; Stop])
   <= starts [Start 0 0; IntervalFires 500; IntervalFires 1000;
              IntervalFires 1010; Start 2000 2000; Stop])%nat /\
  complete_after_last_tick false
    (trace (createTimer 1)
       [Start 0 0; IntervalFires 500; IntervalFires 1000;
        IntervalFires 1010; Start 2000 2000; Stop]) = true /\
  trace (stop (run (createTimer 1)
                 [Start 0 0; IntervalFires 500; IntervalFires 1000;
                  IntervalFires 1010; Start 2000 2000; Stop]))
        [IntervalFires 3000; GetRemaining 3000; Pause 3000] = [].
Proof.
  apply (complete_once_per_start 1
           [Start 0 0; IntervalFires 500; IntervalFires 1000;
            IntervalFires 1010; Start 2000 2000; Stop]
           [IntervalFires 3000; GetRemaining 3000; Pause 3000]).
  reflexivity.
Defined.

(** ** Time limits *)

Lemma base_time_cases (level : Z) :
  let b := nth (Z.to_nat (Z.max 0 (Z.min 5 level))) BASE_TIMES 0 in
  (level <= 0)%Z /\ b = 5 \/ level = 1%Z /\ b = 3 \/ level = 2%Z /\ b = 2 \/
  level = 3%Z /\ b = 3 # 2 \/ level = 4%Z /\ b = 6 # 5 \/ (5 <= level)%Z /\ b = 1.
Proof.
  cbv zeta.
  destruct (Z.leb_spec level 0) as [H0 | H0].
  { left. split; [exact H0|]. replace (Z.max 0 (Z.min 5 level)) with 0%Z by lia.
    reflexivity. }
  destruct (Z.leb_spec 5 level) as [H5 | H5].
  { do 5 right. split; [exact H5|].
    replace (Z.max 0 (Z.min 5 level)) with 5%Z by lia. reflexivity. }
  assert (H : level = 1%Z \/ level = 2%Z \/ level = 3%Z \/ level = 4%Z) by lia.
  destruct H as [-> | [-> | [-> | ->]]]; auto 10.
Qed.

(** X11.  The time limit of a command is between 1 and 10 seconds
    whatever its level and complexity; a higher level never gives more
    time and a higher complexity never gives less; at complexity 1 it is
    the base time of the level. *)
Theorem time_limit_bounds (level1 level2 : Z) (complexity1 complexity2 : Q) :
  (level1 <= level2)%Z ->
  complexity1 <= complexity2 ->
  1 <= getTimeLimit level1 complexity1 <= 10 /\
  getTimeLimit level2 complexity1 <= getTimeLimit level1 complexity2 /\
  getTimeLimit level1 1 == getBaseTime level1.
Proof.
  intros Hl Hc.
  assert (Hclamp : forall c, 1 <= Qmax 1 (Qmin 2 c) <= 2).
  { intros c. split; [apply Q.le_max_l|].
    apply Q.max_lub; [discriminate | apply Q.le_min_l]. }
  assert (Hmono : Qmax 1 (Qmin 2 complexity1) <= Qmax 1 (Qmin 2 complexity2)).
  { apply Q.max_le_compat_l. apply Q.min_le_compat_l. exact Hc. }
  pose proof (Hclamp complexity1) as [Hc1 Hc1'].
  pose proof (Hclamp complexity2) as [Hc2 Hc2'].
  unfold getTimeLimit, getBaseTime. cbv zeta.
  set (c1 := Qmax 1 (Qmin 2 complexity1)) in *.
  set (c2 := Qmax 1 (Qmin 2 complexity2)) in *.
  split; [|split].
  - destruct (base_time_cases level1)
      as [[_ ->] | [[_ ->] | [[_ ->] | [[_ ->] | [[_ ->] | [_ ->]]]]]]; lra.
  - destruct (base_time_cases level1)
      as [[H1 ->] | [[H1 ->] | [[H1 ->] | [[H1 ->] | [[H1 ->] | [H1 ->]]]]]];
      destruct (base_time_cases level2)
      as [[H2 ->] | [[H2 ->] | [[H2 ->] | [[H2 ->] | [[H2 ->] | [H2 ->]]]]]];
      try lia; lra.
  - change (Qmax 1 (Qmin 2 1)) with 1. ring.
Qed.

Lemma time_limit_bounds_witness :
  1 <= getTimeLimit 1 (3 # 2) <= 10 /\
  getTimeLimit 3 (3 # 2) <= getTimeLimit 1 (9 # 5) /\
  getTimeLimit 1 1 == getBaseTime 1.
Proof.
  apply (time_limit_bounds 1 3 (3 # 2) (9 # 5)).
  - lia.
  - vm_compute. discriminate.
Defined.

Lemma trace_nonneg calls : forall t,
  remaining_nonneg t -> forallb reports_nonneg (trace t calls) = true.
Proof.
  induction calls as [|c calls IH]; intros t Hinv; [reflexivity|].
  cbn [trace]. rewrite forallb_app.
  rewrite (IH (step t c) (step_nonneg t c Hinv)), andb_true_r.
  destruct c as [now now' | now | | seconds | now | now]; cbn [notifies];
    try reflexivity.
  - destruct (isRunning t && negb (isPaused t)); [reflexivity|].
    unfold tick_notifies.
    assert (H0 : 0 <= fst (updateRemaining now' (started now t))).
    { unfold updateRemaining.
      destruct (started_flags now t) as [-> [-> _]]. cbn. apply Q.le_max_l. }
    cbn [forallb reports_nonneg].
    apply Qle_bool_iff in H0. rewrite H0.
    destruct (Qle_bool (fst (updateRemaining now' (started now t))) 0);
      reflexivity.
  - destruct (intervalId t); [|reflexivity].
    unfold tick_notifies.
    destruct (updateRemaining_nonneg now t Hinv) as [H0 _].
    cbn [forallb reports_nonneg].
    apply Qle_bool_iff in H0. rewrite H0.
    destruct (Qle_bool (fst (updateRemaining now t)) 0); reflexivity.
Qed.

(** X26.  For a timer created with a duration that is not negative and
    any history of calls and firings of the interval, at any clock
    readings: [getRemaining()] never returns a negative value, no
    [onTick] reports one, and from a [stop()] until the next [start()]
    or [addTime()] every [getRemaining()] returns 0.  The history may
    run past the expiry and may take away more time than is left. *)
Theorem remaining_never_negative (limit : Q) (calls after : list call) (now : Z) :
  0 <= limit ->
  forallb leaves_stopped after = true ->
  let t := run (createTimer limit) calls in
  0 <= fst (getRemaining now t) /\
  forallb reports_nonneg (trace (createTimer limit) calls) = true /\
  fst (getRemaining now (run (stop t) after)) = 0.
Proof.
  intros Hlimit Hafter. cbv zeta.
  set (t := run (createTimer limit) calls).
  assert (H0 : remaining_nonneg (createTimer limit)) by exact Hlimit.
  assert (Hinv : remaining_nonneg t) by (apply run_nonneg; exact H0).
  split; [|split].
  - unfold getRemaining. destruct (isPaused t); [exact Hinv|].
    apply updateRemaining_nonneg. exact Hinv.
  - apply trace_nonneg. exact H0.
  - rewrite stop_stays by exact Hafter. reflexivity.
Qed.

Lemma remaining_never_negative_witness :
  let calls := [Start 0 0; GetRemaining 500; AddTime (- (10)); Pause 700;
                Start 900 900; IntervalFires 5000; AddTime 3] in
  let t := run (createTimer 2) calls in
  0 <= fst (getRemaining 1500 t) /\
  forallb reports_nonneg (trace (createTimer 2) calls) = true /\
  fst (getRemaining 1500 (run (stop t) [GetRemaining 7000; Pause 7100; Stop]))
  = 0.
Proof.
  apply (remaining_never_negative 2
           [Start 0 0; GetRemaining 500; AddTime (- (10)); Pause 700;
            Start 900 900; IntervalFires 5000; AddTime 3]
           [GetRemaining 7000; Pause 7100; Stop] 1500).
  - vm_compute. discriminate.
  - reflexivity.
Defined.

End TimerLifecycle.

(* ===================================================================== *)
(** * Further properties of the scorer *)
(* ===================================================================== *)

Section ScorerSessions.

Import Scorer.

Lemma getComboMultiplier_ge_1 combo : 1 <= getComboMultiplier combo.
Proof.
  unfold getComboMultiplier.
  destruct (Z.ltb_spec combo 0); [cbn; lia|].
  pose proof (Z.div_pos combo 5 ltac:(lia) ltac:(lia)). lia.
Qed.

Lemma getComboMultiplier_mono c1 c2 :
  c1 <= c2 -> getComboMultiplier c1 <= getComboMultiplier c2.
Proof.
  intros H. unfold getComboMultiplier.
  destruct (Z.ltb_spec c1 0), (Z.ltb_spec c2 0); try lia.
  - cbn. pose proof (Z.div_pos c2 5 ltac:(lia) ltac:(lia)). lia.
  - pose proof (Z.div_le_mono c1 c2 5 ltac:(lia) H). lia.
Qed.

(** The factors of the score: the clamped time ratio, level and combo
    multipliers. *)
Lemma calculateScore_factors tr mt lv cb :
  exists ratio : Q,
    (0 <= ratio)%Q /\
    (ratio == Qmax tr 0 / (if Qle_bool mt 0 then 1 else mt))%Q /\
    calculateScore tr mt lv cb
    = Qfloor ((100 + ratio * 50) * inject_Z (Z.min (Z.max lv 0) 5 + 1)
              * inject_Z (Z.max cb 0 / 5 + 1))%Q.
Proof.
  exists (Qmax tr 0 / (if Qle_bool mt 0 then 1 else mt))%Q.
  split; [|split; [reflexivity|]].
  - assert (Hmt : (0 < (if Qle_bool mt 0 then 1 else mt))%Q).
    { destruct (Qle_bool mt 0) eqn:E; [reflexivity|].
      destruct (Qlt_le_dec 0 mt) as [H | H]; [exact H|].
      apply Qle_bool_iff in H. congruence. }
    apply Qle_shift_div_l; [exact Hmt|]. rewrite Qmult_0_l. apply Q.le_max_r.
  - unfold calculateScore. cbv zeta.
    rewrite getComboMultiplier_clamped.
    pose proof (clamp_level lv) as Hl. cbv zeta in Hl. rewrite Hl.
    apply Qfloor_comp.
    rewrite (clamp_below_Qmax tr). reflexivity.
Qed.

(** Bounds and monotonicity of the score, and the steps of the combo
    multiplier. *)
Lemma calculateScore_bounds (timeRemaining1 timeRemaining2 maxTime : Q)
    (level1 level2 combo1 combo2 : Z) :
  (timeRemaining1 <= timeRemaining2)%Q ->
  level1 <= level2 ->
  combo1 <= combo2 ->
  100 <= calculateScore timeRemaining1 maxTime level1 combo1 /\
  calculateScore timeRemaining1 maxTime level1 combo1
  <= calculateScore timeRemaining2 maxTime level2 combo2 /\
  ((timeRemaining1 <= (if Qle_bool maxTime 0 then 1 else maxTime))%Q ->
   calculateScore timeRemaining1 maxTime level1 combo1
   <= 900 * getComboMultiplier combo1) /\
  (combo1 <= 4 -> getComboMultiplier combo1 = 1) /\
  (0 <= combo1 -> getComboMultiplier (combo1 + 5) = getComboMultiplier combo1 + 1).
Proof.
  intros Ht Hl Hc.
  destruct (calculateScore_factors timeRemaining1 maxTime level1 combo1)
    as [r1 [Hr1 [Er1 ->]]].
  destruct (calculateScore_factors timeRemaining2 maxTime level2 combo2)
    as [r2 [Hr2 [Er2 ->]]].
  set (mt := if Qle_bool maxTime 0 then 1%Q else maxTime) in *.
  assert (Hmt : (0 < mt)%Q).
  { unfold mt. destruct (Qle_bool maxTime 0) eqn:E; [reflexivity|].
    destruct (Qlt_le_dec 0 maxTime) as [H | H]; [exact H|].
    apply Qle_bool_iff in H. congruence. }
  assert (Hr12 : (r1 <= r2)%Q).
  { rewrite Er1, Er2. apply Qmult_le_compat_r.
    - apply Q.max_le_compat_r. exact Ht.
    - apply Qlt_le_weak, Qinv_lt_0_compat, Hmt. }
  set (L1 := Z.min (Z.max level1 0) 5 + 1).
  set (L2 := Z.min (Z.max level2 0) 5 + 1).
  set (M1 := Z.max combo1 0 / 5 + 1).
  set (M2 := Z.max combo2 0 / 5 + 1).
  assert (HL : 1 <= L1 <= L2 /\ L2 <= 6) by (unfold L1, L2; lia).
  assert (HM1 : 1 <= M1).
  { unfold M1. pose proof (Z.div_pos (Z.max combo1 0) 5 ltac:(lia) ltac:(lia)). lia. }
  assert (HM : M1 <= M2).
  { unfold M1, M2.
    pose proof (Z.div_le_mono (Z.max combo1 0) (Z.max combo2 0) 5 ltac:(lia) ltac:(lia)).
    lia. }
  assert (HqL1 : (1 <= inject_Z L1)%Q) by (rewrite <- (Zle_Qle 1); lia).
  assert (HqL : (inject_Z L1 <= inject_Z L2)%Q) by (rewrite <- Zle_Qle; lia).
  assert (HqL6 : (inject_Z L1 <= 6)%Q) by (rewrite <- (Zle_Qle _ 6); lia).
  assert (HqM1 : (1 <= inject_Z M1)%Q) by (rewrite <- (Zle_Qle 1); lia).
  assert (HqM : (inject_Z M1 <= inject_Z M2)%Q) by (rewrite <- Zle_Qle; lia).
  assert (Hprod : forall a b l l' m m' : Q,
            (0 <= a <= b -> 0 <= l <= l' -> 0 <= m <= m' ->
             a * l * m <= b * l' * m')%Q).
  { intros a b l l' m m' Ha Hl' Hm.
    apply Qmult_le_compat_nonneg; [|exact Hm]. split.
    - apply Qmult_le_0_compat; [apply Ha | apply Hl'].
    - apply Qmult_le_compat_nonneg; assumption. }
  split; [|split; [|split; [|split]]].
  - apply Z.le_trans with (Qfloor (100 * 1 * 1)); [vm_compute; discriminate|].
    apply Qfloor_resp_le.
    apply Hprod; split; try assumption; try discriminate. lra.
  - apply Qfloor_resp_le. apply Hprod; split; try assumption; lra.
  - intros Hle.
    assert (Hr1' : (r1 <= 1)%Q).
    { rewrite Er1. apply Qle_shift_div_r; [exact Hmt|]. rewrite Qmult_1_l.
      apply Q.max_lub; [exact Hle | apply Qlt_le_weak, Hmt]. }
    assert (HM1' : getComboMultiplier combo1 = M1).
    { unfold getComboMultiplier, M1. rewrite clamp_combo. reflexivity. }
    rewrite HM1'.
    rewrite <- (Qfloor_Z (900 * M1)). apply Qfloor_resp_le.
    rewrite inject_Z_mult.
    apply Qle_trans with (150 * 6 * inject_Z M1)%Q.
    + apply Hprod; split; try assumption; try apply Qle_refl; lra.
    + apply Qmult_le_compat_r; [discriminate | lra].
  - intros H4. unfold getComboMultiplier.
    destruct (Z.ltb_spec combo1 0); [reflexivity|].
    rewrite Z.div_small by lia. reflexivity.
  - intros H0. unfold getComboMultiplier.
    destruct (Z.ltb_spec combo1 0); [lia|].
    destruct (Z.ltb_spec (combo1 + 5) 0); [lia|].
    replace (combo1 + 5) with (combo1 + 1 * 5) by lia.
    rewrite Z.div_add by lia. lia.
Qed.

(** X12.  A correct attempt always earns at least 100 points, and the
    score never falls when more time remains, when the level is higher
    or when the combo is longer. *)
Theorem score_bounds_and_monotone (timeRemaining1 timeRemaining2 maxTime : Q)
    (level1 level2 combo1 combo2 : Z) :
  (timeRemaining1 <= timeRemaining2)%Q ->
  level1 <= level2 ->
  combo1 <= combo2 ->
  100 <= calculateScore timeRemaining1 maxTime level1 combo1 /\
  calculateScore timeRemaining1 maxTime level1 combo1
  <= calculateScore timeRemaining2 maxTime level2 combo2.
Proof.
  intros Ht Hl Hc.
  destruct (calculateScore_bounds timeRemaining1 timeRemaining2 maxTime
              level1 level2 combo1 combo2 Ht Hl Hc) as [H1 [H2 _]].
  split; assumption.
Qed.

Lemma score_bounds_and_monotone_witness :
  100 <= calculateScore 1 2 2 4 /\
  calculateScore 1 2 2 4 <= calculateScore (3 # 2) 2 3 5.
Proof.
  apply (score_bounds_and_monotone 1 (3 # 2) 2 2 3 4 5).
  - vm_compute. discriminate.
  - lia.
  - lia.
Defined.

(** X13.  With a positive time limit and no more time remaining than
    the limit, the score is at most 900 times the combo multiplier.  The
    combo multiplier is 1 exactly for combos up to 4 and grows by one
    with every five more. *)
Theorem score_upper_bound (timeRemaining maxTime : Q) (level combo : Z) :
  (0 < maxTime)%Q ->
  (timeRemaining <= maxTime)%Q ->
  calculateScore timeRemaining maxTime level combo
  <= 900 * getComboMultiplier combo /\
  (getComboMultiplier combo = 1 <-> combo <= 4) /\
  getComboMultiplier (Z.max combo 0 + 5) = getComboMultiplier combo + 1.
Proof.
  intros Hpos Hle.
  assert (E : Qle_bool maxTime 0 = false).
  { destruct (Qle_bool maxTime 0) eqn:E; [|reflexivity].
    apply Qle_bool_iff in E. exfalso. exact (Qlt_not_le _ _ Hpos E). }
  destruct (calculateScore_bounds timeRemaining timeRemaining maxTime
              level level combo combo (Qle_refl _) (Z.le_refl _) (Z.le_refl _))
    as [_ [_ [Hup [H4 _]]]].
  rewrite E in Hup.
  split; [exact (Hup Hle)|]. split.
  - split; [|exact H4].
    intros H1. unfold getComboMultiplier in H1.
    destruct (Z.ltb_spec combo 0); [lia|].
    destruct (Z_le_gt_dec combo 4) as [Hc | Hc]; [exact Hc|].
    pose proof (Z.div_le_mono 5 combo 5 ltac:(lia) ltac:(lia)) as Hd.
    change (5 / 5) with 1 in Hd. lia.
  - destruct (calculateScore_bounds timeRemaining timeRemaining maxTime
                level level (Z.max combo 0) (Z.max combo 0)
                (Qle_refl _) (Z.le_refl _) (Z.le_refl _))
      as [_ [_ [_ [_ H5]]]].
    rewrite (H5 ltac:(lia)). f_equal.
    unfold getComboMultiplier.
    destruct (Z.ltb_spec combo 0), (Z.ltb_spec (Z.max combo 0) 0); try lia.
    + rewrite Z.max_r by lia. reflexivity.
    + rewrite Z.max_l by lia. reflexivity.
Qed.

Lemma score_upper_bound_witness :
  calculateScore 2 2 5 7 <= 900 * getComboMultiplier 7 /\
  (getComboMultiplier 7 = 1 <-> 7 <= 4) /\
  getComboMultiplier (Z.max 7 0 + 5) = getComboMultiplier 7 + 1.
Proof.
  apply (score_upper_bound 2 2 5 7).
  - reflexivity.
  - vm_compute. discriminate.
Defined.

Lemma record_all_app s xs ys :
  record_all s (xs ++ ys) = record_all (record_all s xs) ys.
Proof.
  revert s. induction xs as [|x xs IH]; intros s; [reflexivity|].
  cbn. apply IH.
Qed.

Lemma repeat_snoc (n : nat) : repeat true n ++ [true] = repeat true (S n).
Proof. cbn. rewrite repeat_cons. reflexivity. Qed.

Lemma ends_with_streak_has n l : ends_with_streak n l -> has_streak n l.
Proof.
  intros [before [E _]]. exists before, []. rewrite app_nil_r. exact E.
Qed.

Lemma has_streak_snoc n l b : has_streak n l -> has_streak n (l ++ [b]).
Proof.
  intros [before [after E]]. exists before, (after ++ [b]).
  rewrite E, <- !app_assoc. reflexivity.
Qed.

(** A run of correct attempts at the end is no longer than the trailing
    streak. *)
Lemma streak_at_end (m : nat) :
  forall n l before,
    ends_with_streak m l -> l = before ++ repeat true n -> (n <= m)%nat.
Proof.
  induction m as [|m IH]; intros n l before [b' [E Hb']] E'.
  - destruct n as [|n]; [lia|]. exfalso.
    cbn in E. rewrite app_nil_r in E. subst l.
    rewrite <- repeat_snoc, app_assoc in E'.
    destruct Hb' as [-> | [earlier ->]].
    + symmetry in E'. apply app_eq_nil in E'. destruct E' as [_ E'].
      discriminate.
    + apply app_inj_tail in E'. destruct E' as [_ E']. discriminate.
  - destruct n as [|n]; [lia|].
    rewrite <- repeat_snoc, app_assoc in E.
    rewrite <- repeat_snoc, app_assoc in E'.
    rewrite E in E'. apply app_inj_tail in E'. destruct E' as [E' _].
    apply le_n_S.
    apply (IH n (b' ++ repeat true m) before); [|exact E'].
    exists b'. split; [reflexivity | exact Hb'].
Qed.

Lemma snoc_cases {A : Type} (l : list A) :
  l = [] \/ exists l' a, l = l' ++ [a].
Proof.
  induction l as [|x l IH] using rev_ind; [left; reflexivity|].
  right. exists l, x. reflexivity.
Qed.

(** A run in a history extended by one outcome is a run of the history
    or lies at its end. *)
Lemma has_streak_snoc_inv n l b :
  has_streak n (l ++ [b]) ->
  has_streak n l \/ exists before, l ++ [b] = before ++ repeat true n.
Proof.
  intros [before [after E]].
  destruct (snoc_cases after) as [-> | [after' [a ->]]].
  - right. exists before. rewrite app_nil_r in E. exact E.
  - left. exists before, after'.
    rewrite !app_assoc in E. apply app_inj_tail in E. destruct E as [E _].
    rewrite E, <- app_assoc. reflexivity.
Qed.

Lemma session_tracks_new : session_tracks new_session [].
Proof.
  unfold session_tracks. cbn.
  repeat split; try lia.
  - exists []. split; [reflexivity | left; reflexivity].
  - exists [], []. reflexivity.
  - intros n [before [after E]].
    symmetry in E. apply app_eq_nil in E. destruct E as [_ E].
    apply app_eq_nil in E. destruct E as [E _].
    destruct n; [lia | discriminate].
Qed.

Lemma session_tracks_step (s : session) (outcomes : list bool) (a : attempt_args) :
  session_tracks s outcomes ->
  session_tracks
    (snd (recordAttempt (arg_isCorrect a) (arg_timeRemaining a)
                        (arg_maxTime a) (arg_level a) s))
    (outcomes ++ [arg_isCorrect a]).
Proof.
  intros (Hc & Hi & Ht & Hcur & Hend & Hbest & Hhas & Hmax).
  pose proof (Hmax _ (ends_with_streak_has _ _ Hend)) as Hcb.
  rewrite Z2Nat.id in Hcb by exact Hcur.
  unfold session_tracks, recordAttempt, updateCombo.
  destruct (Z.ltb_spec (currentCombo s) 0) as [Hneg | _]; [lia|].
  rewrite !count_occ_app.
  destruct (arg_isCorrect a); cbn [snd correctCount incorrectCount totalScore
    currentCombo bestCombo count_occ].
  - assert (Hend' : ends_with_streak (Z.to_nat (currentCombo s + 1))
                      (outcomes ++ [true])).
    { destruct Hend as [before [E Hb]]. exists before. split; [|exact Hb].
      rewrite Z2Nat.inj_add by lia. change (Z.to_nat 1) with 1%nat.
      rewrite Nat.add_1_r, <- repeat_snoc, app_assoc, <- E. reflexivity. }
    pose proof (calculateScore_bounds (arg_timeRemaining a) (arg_timeRemaining a)
                  (arg_maxTime a) (arg_level a) (arg_level a)
                  (currentCombo s + 1) (currentCombo s + 1)
                  (Qle_refl _) (Z.le_refl _) (Z.le_refl _)) as [H100 _].
    destruct (bool_dec true true) as [_ | N]; [|congruence].
    destruct (bool_dec true false) as [N | _]; [discriminate|].
    cbn [List.length].
    repeat split; try lia.
    + exact Hend'.
    + destruct (Z.ltb_spec (bestCombo s) (currentCombo s + 1)); lia.
    + destruct (Z.ltb_spec (bestCombo s) (currentCombo s + 1)).
      * apply ends_with_streak_has. exact Hend'.
      * apply has_streak_snoc. exact Hhas.
    + intros n Hn. apply has_streak_snoc_inv in Hn.
      destruct Hn as [Hn | [before E]].
      * apply Hmax in Hn.
        destruct (Z.ltb_spec (bestCombo s) (currentCombo s + 1)); lia.
      * pose proof (streak_at_end _ _ _ _ Hend' E) as Hle.
        destruct (Z.ltb_spec (bestCombo s) (currentCombo s + 1)); lia.
  - destruct (bool_dec false true) as [N | _]; [discriminate|].
    destruct (bool_dec false false) as [_ | N]; [|congruence].
    assert (Hend' : ends_with_streak 0 (outcomes ++ [false])).
    { exists (outcomes ++ [false]). split.
      - cbn. rewrite app_nil_r. reflexivity.
      - right. exists outcomes. reflexivity. }
    destruct (Z.ltb_spec (bestCombo s) 0) as [Hlt | _]; [lia|].
    repeat split; try lia.
    + exact Hend'.
    + apply has_streak_snoc. exact Hhas.
    + intros n Hn. apply has_streak_snoc_inv in Hn.
      destruct Hn as [Hn | [before E]].
      * apply Hmax. exact Hn.
      * pose proof (streak_at_end _ _ _ _ Hend' E) as Hle. lia.
Qed.

Lemma session_tracks_all (attempts : list attempt_args) :
  session_tracks (record_all new_session attempts) (map arg_isCorrect attempts).
Proof.
  induction attempts as [|a attempts IH] using rev_ind.
  - exact session_tracks_new.
  - rewrite record_all_app, map_app. cbn [record_all map].
    apply session_tracks_step. exact IH.
Qed.






(** X15.  After any attempts since a [reset], [currentCombo] is the
    length of the run of correct attempts that ends the history, and
    [bestCombo] is the length of the longest run of correct attempts in
    it. *)
Theorem session_combos (before_reset : session) (attempts : list attempt_args) :
  let s := record_all (reset before_reset) attempts in
  let outcomes := map arg_isCorrect attempts in
  0 <= currentCombo s <= bestCombo s /\
  ends_with_streak (Z.to_nat (currentCombo s)) outcomes /\
  has_streak (Z.to_nat (bestCombo s)) outcomes /\
  (forall n, has_streak n outcomes -> Z.of_nat n <= bestCombo s).
Proof.
  intros s outcomes.
  change (reset before_reset) with new_session in s.
  destruct (session_tracks_all attempts)
    as (_ & _ & _ & Hcur & Hend & _ & Hhas & Hmax).
  fold s outcomes in Hcur, Hend, Hhas, Hmax.
  pose proof (Hmax _ (ends_with_streak_has _ _ Hend)) as Hcb.
  rewrite Z2Nat.id in Hcb by exact Hcur.
  repeat split; assumption.
Qed.

(** X16.  The game controller scores a correct answer with the combo
    before the answer, a [SessionScorer] with the combo after it: the two
    agree except on the answer that takes the combo to a multiple of
    five, for which the controller awards at least 100 points less.  A
    wrong answer earns nothing from either. *)
Theorem controller_points_lag (isCorrect : bool) (timeRemaining timeLimit : Q)
    (level : Z) (s : session) :
  let points :=
    handleAnswer_points isCorrect timeRemaining timeLimit level (currentCombo s) in
  let recorded :=
    score (fst (recordAttempt isCorrect timeRemaining timeLimit level s)) in
  let newCombo := updateCombo isCorrect (currentCombo s) in
  if isCorrect
  then if newCombo mod 5 =? 0
       then points + 100 <= recorded
       else points = recorded
  else points = 0 /\ recorded = 0.
Proof.
  cbv zeta. unfold handleAnswer_points, recordAttempt.
  destruct isCorrect; cbn [fst score]; [|split; reflexivity].
  destruct (calculateScore_factors timeRemaining timeLimit level (currentCombo s))
    as [r1 [Hr1 [Er1 ->]]].
  destruct (calculateScore_factors timeRemaining timeLimit level
              (updateCombo true (currentCombo s))) as [r2 [Hr2 [Er2 ->]]].
  assert (Er : (r1 == r2)%Q) by (rewrite Er1, Er2; reflexivity).
  unfold updateCombo.
  set (c := if currentCombo s <? 0 then 0 else currentCombo s).
  assert (Hc : c = Z.max (currentCombo s) 0)
    by (unfold c; destruct (Z.ltb_spec (currentCombo s) 0); lia).
  rewrite <- Hc. rewrite (Z.max_l (c + 1) 0) by lia.
  set (L := Z.min (Z.max level 0) 5 + 1).
  assert (HL : (1 <= inject_Z L)%Q) by (rewrite <- (Zle_Qle 1); unfold L; lia).
  destruct (Z.eqb_spec ((c + 1) mod 5) 0) as [Hm | Hm].
  - assert (Hd : (c + 1) / 5 = c / 5 + 1)
      by (revert Hm; Z.div_mod_to_equations; lia).
    rewrite Hd.
    set (m := c / 5 + 1).
    assert (Hm1 : (1 <= inject_Z m)%Q).
    { rewrite <- (Zle_Qle 1). unfold m.
      pose proof (Z.div_pos c 5 ltac:(lia) ltac:(lia)). lia. }
    set (X := ((100 + r2 * 50) * inject_Z L)%Q).
    assert (HX : (100 <= X)%Q).
    { unfold X. apply Qle_trans with ((100 + r2 * 50) * 1)%Q; [lra|].
      apply Qmult_le_l; [lra | exact HL]. }
    rewrite <- (Qfloor_Z (Qfloor ((100 + r1 * 50) * inject_Z L * inject_Z m) + 100)).
    apply Qfloor_resp_le.
    rewrite inject_Z_plus. rewrite (inject_Z_plus m 1).
    change (inject_Z 100) with 100%Q. change (inject_Z 1) with 1%Q.
    pose proof (Qfloor_le ((100 + r1 * 50) * inject_Z L * inject_Z m)) as Hfl.
    assert (E : ((100 + r1 * 50) * inject_Z L * inject_Z m == X * inject_Z m)%Q)
      by (unfold X; rewrite Er; reflexivity).
    assert (Hfl' : (inject_Z (Qfloor ((100 + r1 * 50) * inject_Z L * inject_Z m))
                    <= X * inject_Z m)%Q).
    { apply Qle_trans with ((100 + r1 * 50) * inject_Z L * inject_Z m)%Q;
        [exact Hfl | rewrite E; apply Qle_refl]. }
    fold X. lra.
  - assert (Hd : (c + 1) / 5 = c / 5)
      by (revert Hm; Z.div_mod_to_equations; lia).
    rewrite Hd. apply Qfloor_comp. rewrite Er. reflexivity.
Qed.

End ScorerSessions.

(* ===================================================================== *)
(** * Further properties of the queue *)
(* ===================================================================== *)

Section QueueSelection.

Import Queue.
Local Open Scope nat_scope.

Lemma weight_range cmd :
  level_at_least 0 cmd = true -> (0 < weight cmd <= 1)%Q.
Proof.
  unfold level_at_least, weight. destruct (level cmd) as [| | |n| | |]; try discriminate.
  intros H. apply Z.leb_le in H.
  assert (Hq : (1 <= inject_Z (n + 1))%Q) by (rewrite <- (Zle_Qle 1); lia).
  assert (Hpos : (0 < inject_Z (n + 1))%Q) by lra.
  split.
  - apply Qlt_shift_div_l; [exact Hpos|]. rewrite Qmult_0_l. reflexivity.
  - apply Qle_shift_div_r; [exact Hpos|]. rewrite Qmult_1_l. exact Hq.
Qed.

Lemma weight_antitone c1 c2 n1 n2 :
  level c1 = VNum n1 -> level c2 = VNum n2 -> (0 <= n1 <= n2)%Z ->
  (weight c2 <= weight c1)%Q.
Proof.
  intros E1 E2 H. unfold weight. rewrite E1, E2.
  assert (Hq1 : (1 <= inject_Z (n1 + 1))%Q) by (rewrite <- (Zle_Qle 1); lia).
  assert (Hq : (inject_Z (n1 + 1) <= inject_Z (n2 + 1))%Q)
    by (rewrite <- Zle_Qle; lia).
  apply Qle_shift_div_r; [lra|].
  assert (E : (1 / inject_Z (n1 + 1) * inject_Z (n2 + 1)
               == inject_Z (n2 + 1) / inject_Z (n1 + 1))%Q).
  { field. intros H0. lra. }
  rewrite E. apply Qle_shift_div_l; lra.
Qed.

Lemma weights_of_fin h elems :
  forallb (fun l => level_at_least 0 (read h l)) elems = true ->
  weights_of h elems = Return (map (fun l => Fin (weight (read h l))) elems).
Proof.
  induction elems as [|l elems IH]; intros H; [reflexivity|].
  cbn [forallb] in H. apply andb_prop in H. destruct H as [Hl Hrest].
  cbn [weights_of map]. rewrite (IH Hrest).
  unfold level_at_least in Hl. unfold weight.
  destruct (level (read h l)) as [| | |n| | |]; try discriminate.
  apply Z.leb_le in Hl. unfold reciprocal.
  destruct (Z.eqb_spec (n + 1) 0); [lia | reflexivity].
Qed.





Lemma NoDup_due h elems now : NoDup (due_positions h elems now).
Proof. unfold due_positions. apply NoDup_filter, seq_NoDup. Qed.


(** The command at the current index is in the candidate pool only when
    it is the one due command. *)
Lemma candidate_pool_current h elems cur now k :
  In k (candidate_pool h elems cur now) ->
  strict_eq (the (Z.of_nat k)) cur = true ->
  due_positions h elems now = [k].
Proof.
  unfold candidate_pool. intros Hin Hcur.
  pose proof (NoDup_due h elems now) as Hnd.
  destruct (filter _ (due_positions h elems now)) as [|k0 ks] eqn:E.
  - assert (Hall : forall d, In d (due_positions h elems now) -> d = k).
    { intros d Hd.
      destruct (strict_eq (the (Z.of_nat d)) cur) eqn:Ed.
      - destruct cur as [| |c]; try discriminate.
        cbn in Hcur, Ed. apply Z.eqb_eq in Hcur, Ed. lia.
      - assert (Hf : In d []).
        { rewrite <- E. apply filter_In. split; [exact Hd|].
          rewrite Ed. reflexivity. }
        destruct Hf. }
    destruct (due_positions h elems now) as [|a [|b l]].
    + destruct Hin.
    + rewrite (Hall a (or_introl eq_refl)). reflexivity.
    + exfalso. inversion Hnd as [|? ? Hnotin _]; subst.
      apply Hnotin. left.
      rewrite (Hall a (or_introl eq_refl)).
      rewrite (Hall b (or_intror (or_introl eq_refl))). reflexivity.
  - rewrite <- E in Hin. apply filter_In in Hin. destruct Hin as [_ Hneg].
    rewrite Hcur in Hneg. discriminate.
Qed.

(** A returned reference is the copy of a command of the candidate
    pool. *)
Lemma selected_from_candidates h commands elems cur now rnd l :
  as_array h commands = Some elems ->
  Forall (fun l => l < List.length (objects h)) elems ->
  (0 <= rnd < 1)%Q ->
  fst (selectNextCommand h commands cur now rnd) = Return (the l) ->
  exists k,
    In k (candidate_pool h elems cur now) /\
    l = copy_ref h k /\
    read (snd (selectNextCommand h commands cur now rnd)) l
    = with_index (command_at h elems k) k.
Proof.
  intros Harr Hwf Hrnd.
  rewrite (selectNextCommand_by_position h elems Hwf _ _ _ _ Harr).
  cbn [fst snd].
  pose proof (pool_nonempty h elems cur now) as Hne.
  destruct (due_positions h elems now) as [|d ds] eqn:Ed; [discriminate|].
  pose proof (select_from_pool_spec
                (store_after_map h elems)
                (map (copy_ref h) (candidate_pool h elems cur now))
                rnd (Hne ltac:(discriminate)) Hrnd) as Hsel.
  intros Hret. rewrite Hret in Hsel. destruct Hsel as [Hin _].
  apply in_map_iff in Hin. destruct Hin as [k [Hk Hin]].
  exists k. split; [exact Hin|]. split; [congruence|].
  subst l. apply (pool_copy h elems Hwf cur now k Hin).
Qed.

(** X17.  [selectNextCommand] avoids the current command: a returned
    command is the copy of a due command, and it is the command at the
    current index only when that is the one command due. *)
Theorem no_immediate_repeat (h : heap) (commands : value) (elems : list nat)
    (currentIndex : nullable Z) (now : Z) (rnd : Q) :
  as_array h commands = Some elems ->
  well_formed h commands ->
  (0 <= rnd < 1)%Q ->
  let '(outcome, h') := selectNextCommand h commands currentIndex now rnd in
  match outcome with
  | Return (the l) =>
      exists k,
        originalIndex (read h' l) = the (Z.of_nat k) /\
        In k (due_positions h elems now) /\
        (strict_eq (the (Z.of_nat k)) currentIndex = false \/
         due_positions h elems now = [k])
  | _ => True
  end.
Proof.
  intros Harr Hwf Hrnd. unfold well_formed in Hwf. rewrite Harr in Hwf.
  pose proof (selected_from_candidates h commands elems currentIndex now rnd)
    as Hsel.
  destruct (selectNextCommand h commands currentIndex now rnd)
    as [[e | [ | | l]] h']; try exact I.
  destruct (Hsel l Harr Hwf Hrnd eq_refl) as [k [Hin [_ Hread]]].
  cbn [snd] in Hread.
  exists k. split; [rewrite Hread; reflexivity|].
  split; [apply (candidate_pool_due _ _ _ _ _ Hin)|].
  destruct (strict_eq (the (Z.of_nat k)) currentIndex) eqn:E;
    [right | left; reflexivity].
  apply (candidate_pool_current _ _ _ _ _ Hin E).
Qed.

Lemma no_immediate_repeat_witness :
  let '(outcome, h') :=
    selectNextCommand sample_store (VArray 0) (the 1%Z) 6000 (1 # 2) in
  match outcome with
  | Return (the l) =>
      exists k,
        originalIndex (read h' l) = the (Z.of_nat k) /\
        In k (due_positions sample_store [0; 1; 2] 6000) /\
        (strict_eq (the (Z.of_nat k)) (the 1%Z) = false \/
         due_positions sample_store [0; 1; 2] 6000 = [k])
  | _ => True
  end.
Proof.
  apply (no_immediate_repeat sample_store (VArray 0) [0; 1; 2] (the 1%Z) 6000 (1 # 2)).
  - reflexivity.
  - unfold well_formed. cbn. repeat constructor.
  - split; [vm_compute; discriminate | reflexivity].
Defined.

(** X18.  The game controller always passes 0 as the current index.
    So while a command at another position is due, the call never
    returns the first command of the array: it returns a command at a
    position other than 0, or raises the type error of a command without
    a numeric level. *)
Theorem first_command_last_resort (h : heap) (commandsWithState : value)
    (elems : list nat) (now : Z) (rnd : Q) (other : nat) :
  as_array h commandsWithState = Some elems ->
  well_formed h commandsWithState ->
  (0 <= rnd < 1)%Q ->
  0 < other ->
  In other (due_positions h elems now) ->
  let '(outcome, h') := selectNext_call h commandsWithState now rnd in
  match outcome with
  | Return (the l) =>
      exists k, originalIndex (read h' l) = the (Z.of_nat k) /\ 0 < k
  | Return _ => False
  | Throw _ => True
  end.
Proof.
  intros Harr Hwf Hrnd Hpos Hother. unfold selectNext_call.
  unfold well_formed in Hwf. rewrite Harr in Hwf.
  pose proof (selected_from_candidates h commandsWithState elems (the 0%Z) now rnd)
    as Hsel.
  pose proof (selectNextCommand_by_position h elems Hwf commandsWithState
                (the 0%Z) now rnd Harr) as Hpos'.
  destruct (selectNextCommand h commandsWithState (the 0%Z) now rnd)
    as [[e | [ | | l]] h'].
  - exact I.
  - injection Hpos' as Hout _.
    pose proof (pool_nonempty h elems (the 0%Z) now) as Hne.
    destruct (due_positions h elems now) as [|d ds] eqn:Ed; [destruct Hother|].
    pose proof (select_from_pool_spec
                  (store_after_map h elems)
                  (map (copy_ref h) (candidate_pool h elems (the 0%Z) now))
                  rnd (Hne ltac:(discriminate)) Hrnd) as Hspec.
    rewrite <- Hout in Hspec. exact Hspec.
  - injection Hpos' as Hout _.
    destruct (due_positions h elems now) as [|d ds] eqn:Ed; [destruct Hother|].
    pose proof (pool_nonempty h elems (the 0%Z) now) as Hne. rewrite Ed in Hne.
    pose proof (select_from_pool_spec
                  (store_after_map h elems)
                  (map (copy_ref h) (candidate_pool h elems (the 0%Z) now))
                  rnd (Hne ltac:(discriminate)) Hrnd) as Hspec.
    rewrite <- Hout in Hspec. exact Hspec.
  - destruct (Hsel l Harr Hwf Hrnd eq_refl) as [k [Hin [_ Hread]]].
    cbn [snd] in Hread.
    exists k. split; [rewrite Hread; reflexivity|].
    destruct k as [|k]; [|lia]. exfalso.
    pose proof (candidate_pool_current _ _ _ _ _ Hin eq_refl) as Hone.
    rewrite Hone in Hother. destruct Hother as [<- | []]. lia.
Qed.

Lemma first_command_last_resort_witness :
  let '(outcome, h') := selectNext_call graded_store (VArray 0) 9500 (1 # 10) in
  match outcome with
  | Return (the l) =>
      exists k, originalIndex (read h' l) = the (Z.of_nat k) /\ 0 < k
  | Return _ => False
  | Throw _ => True
  end.
Proof.
  apply (first_command_last_resort graded_store (VArray 0) [0; 1; 2] 9500 (1 # 10) 2).
  - reflexivity.
  - unfold well_formed. cbn. repeat constructor.
  - split; [vm_compute; discriminate | reflexivity].
  - lia.
  - cbn. right. right. left. reflexivity.
Defined.








(** X21.  On an array of commands with numeric levels from 0 on,
    [getCommandWeights] returns one finite weight per command, in the
    order of the array; each weight is positive and at most 1, it is 1
    exactly at level 0, and a command of a higher level never has a
    larger weight. *)
Theorem command_weights (h : heap) (commands : value) (elems : list nat) :
  as_array h commands = Some elems ->
  forallb (fun l => level_at_least 0 (read h l)) elems = true ->
  exists ws : list Q,
    getCommandWeights h commands = Return (map Fin ws) /\
    List.length ws = List.length elems /\
    forall i l, nth_error elems i = Some l ->
      exists w n,
        nth_error ws i = Some w /\ level (read h l) = VNum n /\
        (0 < w <= 1)%Q /\
        ((w == 1)%Q <-> n = 0%Z) /\
        forall i' l' w' n',
          nth_error elems i' = Some l' -> nth_error ws i' = Some w' ->
          level (read h l') = VNum n' -> (n <= n')%Z -> (w' <= w)%Q.
Proof.
  intros Harr Hlevels.
  exists (map (fun l => weight (read h l)) elems).
  split; [|split].
  - unfold getCommandWeights. rewrite Harr, weights_of_fin by exact Hlevels.
    rewrite map_map. reflexivity.
  - apply length_map.
  - intros i l Hi.
    assert (Hl : level_at_least 0 (read h l) = true).
    { rewrite forallb_forall in Hlevels. apply Hlevels.
      apply (nth_error_In _ _ Hi). }
    pose proof (weight_range _ Hl) as Hrange.
    unfold level_at_least in Hl.
    destruct (level (read h l)) as [| | |n| | |] eqn:En; try discriminate.
    apply Z.leb_le in Hl.
    exists (weight (read h l)), n.
    split; [rewrite nth_error_map, Hi; reflexivity|].
    split; [reflexivity|]. split; [exact Hrange|]. split.
    + unfold weight. rewrite En.
      assert (Hq : (1 <= inject_Z (n + 1))%Q) by (rewrite <- (Zle_Qle 1); lia).
      split.
      * intros H1.
        assert (E : (inject_Z (n + 1) == 1)%Q).
        { assert (E' : (inject_Z (n + 1) * (1 / inject_Z (n + 1)) == 1)%Q)
            by (field; intros H0; lra).
          rewrite H1 in E'. lra. }
        assert (Hz : (n + 1 = 1)%Z) by (apply inject_Z_injective; exact E).
        lia.
      * intros ->. reflexivity.
    + intros i' l' w' n' Hi' Hw' En' Hle.
      rewrite nth_error_map, Hi' in Hw'. injection Hw' as <-.
      apply (weight_antitone _ _ n n'); [exact En | exact En' | lia].
Qed.

Lemma command_weights_witness :
  exists ws : list Q,
    getCommandWeights graded_store (VArray 0) = Return (map Fin ws) /\
    List.length ws = List.length [0; 1; 2] /\
    forall i l, nth_error [0; 1; 2] i = Some l ->
      exists w n,
        nth_error ws i = Some w /\ level (read graded_store l) = VNum n /\
        (0 < w <= 1)%Q /\
        ((w == 1)%Q <-> n = 0%Z) /\
        forall i' l' w' n',
          nth_error [0; 1; 2] i' = Some l' -> nth_error ws i' = Some w' ->
          level (read graded_store l') = VNum n' -> (n <= n')%Z -> (w' <= w)%Q.
Proof.
  apply (command_weights graded_store (VArray 0) [0; 1; 2]).
  - reflexivity.
  - reflexivity.
Defined.

End QueueSelection.

(* ===================================================================== *)
(** * Properties of the input buffer *)
(* ===================================================================== *)

Section InputBufferProperties.

Import Ascii KeyParser.
Local Open Scope string_scope.
Local Open Scope nat_scope.

Lemma append_nil_r (s : string) : s ++ EmptyString = s.
Proof. induction s as [|a s IH]; cbn; [reflexivity | rewrite IH; reflexivity]. Qed.

Lemma append_assoc (s t u : string) : (s ++ t) ++ u = s ++ (t ++ u).
Proof. induction s as [|a s IH]; cbn; [reflexivity | rewrite IH; reflexivity]. Qed.

Lemma length_append (s t : string) :
  String.length (s ++ t) = String.length s + String.length t.
Proof. induction s as [|a s IH]; cbn; [reflexivity | rewrite IH; reflexivity]. Qed.

Lemma prefix_append (s t : string) : String.prefix s (s ++ t) = true.
Proof.
  induction s as [|a s IH]; cbn; [destruct t; reflexivity|].
  destruct (Ascii.ascii_dec a a); [exact IH | congruence].
Qed.

Lemma prefix_append_inv (s k : string) : forall t,
  String.prefix (s ++ k) t = true -> String.prefix s t = true.
Proof.
  induction s as [|a s IH]; intros t H; [destruct t; reflexivity|].
  destruct t as [|b t]; cbn in *; [discriminate|].
  destruct (Ascii.ascii_dec a b); [apply IH; exact H | discriminate].
Qed.

Lemma prefix_refl (s : string) : String.prefix s s = true.
Proof. rewrite <- (append_nil_r s) at 2. apply prefix_append. Qed.

Lemma mentions_append c (s t : string) :
  mentions c (s ++ t) = mentions c s || mentions c t.
Proof.
  induction s as [|a s IH]; cbn; [reflexivity|].
  rewrite IH, orb_assoc. reflexivity.
Qed.

Lemma playable_spec (input : string) :
  playable input = true ->
  0 < String.length input /\
  String.eqb input "q" = false /\ String.eqb input "s" = false.
Proof.
  unfold playable. intros H.
  apply andb_prop in H. destruct H as [H Hs].
  apply andb_prop in H. destruct H as [He Hq].
  apply negb_true_iff in He, Hq, Hs.
  repeat split; try assumption.
  destruct input; [discriminate He | cbn; lia].
Qed.

Lemma typed_app (xs ys : list string) :
  typed (xs ++ ys)%list = typed xs ++ typed ys.
Proof.
  induction xs as [|x xs IH]; cbn; [reflexivity|].
  rewrite IH, append_assoc. reflexivity.
Qed.

Lemma typed_length (inputs : list string) :
  inputs <> [] -> forallb playable inputs = true ->
  0 < String.length (typed inputs).
Proof.
  destruct inputs as [|x xs]; [congruence|]. intros _ H.
  cbn in *. apply andb_prop in H. destruct H as [H _].
  apply playable_spec in H. rewrite length_append. lia.
Qed.

Lemma run_app this xs ys :
  run this (xs ++ ys)%list
  = ((fst (run this xs) ++ fst (run (snd (run this xs)) ys))%list,
     snd (run (snd (run this xs)) ys)).
Proof.
  revert this. induction xs as [|x xs IH]; intros this; cbn [app run].
  - cbn. destruct (run this ys); reflexivity.
  - destruct (step this x) as [a this1]. rewrite IH.
    destruct (run this1 xs) as [as1 this2]. cbn [fst snd].
    destruct (run this2 ys); reflexivity.
Qed.

(** One playable input on the game screen is added to the buffer. *)
Lemma useInput_playable keys input this :
  playable input = true ->
  useInput GameScreen (Some keys) input false this
  = if String.eqb (buffer this ++ input) keys
    then (Answer, clear (addKey input this))
    else (NoReaction, addKey input this).
Proof.
  intros H. apply playable_spec in H. destruct H as [_ [Hq Hs]].
  unfold useInput. rewrite Hq, Hs. reflexivity.
Qed.

(** Typing inputs that are the beginning of the keys, but not all of
    them, is not answered and leaves what was typed in the buffer. *)
Lemma run_partial keys (inputs : list string) : forall this rest,
  forallb playable inputs = true ->
  0 < String.length rest ->
  keys = buffer this ++ typed inputs ++ rest ->
  run this (typing keys inputs)
  = (repeat NoReaction (List.length inputs),
     match inputs with
     | [] => this
     | _ => {| buffer := buffer this ++ typed inputs;
               timeout := timeout this; timer := true |}
     end).
Proof.
  induction inputs as [|x xs IH]; intros this rest Hne Hrest Hkeys; [reflexivity|].
  cbn [forallb] in Hne. apply andb_prop in Hne. destruct Hne as [Hx Hxs].
  cbn [typing map run step]. rewrite (useInput_playable keys x this Hx).
  apply playable_spec in Hx. destruct Hx as [Hx _].
  destruct (String.eqb_spec (buffer this ++ x) keys) as [E | _].
  { exfalso. apply (f_equal String.length) in E. rewrite Hkeys in E.
    cbn [typed] in E. rewrite !length_append in E. lia. }
  fold (typing keys xs). rewrite (IH _ rest Hxs Hrest).
  2:{ cbn [addKey _resetTimer buffer]. rewrite Hkeys. cbn [typed].
      rewrite !append_assoc. reflexivity. }
  unfold addKey, _resetTimer.
  cbn [buffer timeout timer repeat List.length]. f_equal.
  destruct xs as [|x' xs'].
  - cbn [typed]. rewrite append_nil_r. reflexivity.
  - cbn [typed]. rewrite !append_assoc. reflexivity.
Qed.

(** A buffer that is not empty has a time-out pending. *)
Lemma step_pending this e :
  buffer this = EmptyString \/ timer this = true ->
  buffer (snd (step this e)) = EmptyString \/ timer (snd (step this e)) = true.
Proof.
  intros H. destruct e as [shown cc input escape|]; cbn [step].
  - unfold useInput.
    destruct (escape || String.eqb input "q"); [exact H|].
    destruct (String.eqb input "s"); [exact H|].
    destruct shown, escape, cc as [keys|]; try exact H.
    + destruct (matches (addKey input this) keys);
        [left; reflexivity | right; reflexivity].
    + destruct (matches (addKey input this) keys);
        [left; reflexivity | right; reflexivity].
  - cbn [snd]. unfold timer_fires. destruct (timer this) eqn:E.
    + left. reflexivity.
    + destruct H as [H | H]; [left; exact H | congruence].
Qed.

Lemma run_pending events : forall this,
  buffer this = EmptyString \/ timer this = true ->
  buffer (snd (run this events)) = EmptyString
  \/ timer (snd (run this events)) = true.
Proof.
  induction events as [|e events IH]; intros this H; [exact H|].
  cbn [run]. pose proof (step_pending this e H) as Hs.
  destruct (step this e) as [a this1]. cbn [snd] in Hs.
  specialize (IH this1 Hs).
  destruct (run this1 events) as [answers this2]. exact IH.
Qed.

Lemma step_timeout this e : timeout (snd (step this e)) = timeout this.
Proof.
  destruct e as [shown cc input escape|]; cbn [step snd].
  - unfold useInput.
    destruct (escape || String.eqb input "q"); [reflexivity|].
    destruct (String.eqb input "s"); [reflexivity|].
    destruct shown, escape, cc as [keys|]; try reflexivity;
      destruct (matches (addKey input this) keys); reflexivity.
  - unfold timer_fires. destruct (timer this); reflexivity.
Qed.

Lemma run_timeout events : forall this,
  timeout (snd (run this events)) = timeout this.
Proof.
  induction events as [|e events IH]; intros this; [reflexivity|].
  cbn [run]. pose proof (step_timeout this e) as Hs.
  destruct (step this e) as [a this1]. cbn [snd] in Hs.
  specialize (IH this1).
  destruct (run this1 events) as [answers this2]. cbn [snd] in *. congruence.
Qed.

(** While the buffer is not a beginning of the keys, an input handled
    for these keys is not answered and leaves it so. *)
Lemma step_blocked keys this e :
  during keys e = true ->
  e <> TimerFires ->
  String.prefix (buffer this) keys = false ->
  timer this = true ->
  is_answer (fst (step this e)) = false /\
  String.prefix (buffer (snd (step this e))) keys = false /\
  timer (snd (step this e)) = true.
Proof.
  intros Hd Hk Hp Ht. destruct e as [shown cc input escape|]; [|congruence].
  cbn [during] in Hd. destruct cc as [keys'|]; [|discriminate].
  apply String.eqb_eq in Hd. subst keys'.
  cbn [step]. unfold useInput.
  destruct (escape || String.eqb input "q"); [auto|].
  destruct (String.eqb input "s"); [auto|].
  assert (Hp' : String.prefix (buffer this ++ input) keys = false).
  { destruct (String.prefix (buffer this ++ input) keys) eqn:E; [|reflexivity].
    apply prefix_append_inv in E. congruence. }
  assert (Hm : matches (addKey input this) keys = false).
  { unfold matches, addKey, _resetTimer. cbn [buffer].
    apply String.eqb_neq. intros E. rewrite <- E, prefix_refl in Hp'.
    discriminate. }
  destruct shown, escape; cbn [fst snd]; auto; rewrite Hm; cbn; auto.
Qed.

Lemma run_blocked keys (events : list event) : forall this,
  forallb (during keys) events = true ->
  forallb (fun e => match e with TimerFires => false | _ => true end) events
  = true ->
  String.prefix (buffer this) keys = false ->
  timer this = true ->
  existsb is_answer (fst (run this events)) = false /\
  String.prefix (buffer (snd (run this events))) keys = false /\
  timer (snd (run this events)) = true.
Proof.
  induction events as [|e events IH]; intros this Hd Hk Hp Ht.
  - cbn. auto.
  - cbn [forallb] in Hd, Hk.
    apply andb_prop in Hd. destruct Hd as [Hd Hds].
    apply andb_prop in Hk. destruct Hk as [Hk Hks].
    assert (Hk' : e <> TimerFires) by (intros ->; discriminate).
    destruct (step_blocked keys this e Hd Hk' Hp Ht) as [Ha [Hp' Ht']].
    cbn [run]. destruct (step this e) as [r this1]. cbn [fst snd] in *.
    specialize (IH this1 Hds Hks Hp' Ht').
    destruct (run this1 events) as [rs this2]. cbn [fst snd existsb] in *.
    rewrite Ha. exact IH.
Qed.

Lemma single_not_reserved (input : string) :
  String.length input <= 1 ->
  String.eqb input "q" = false -> String.eqb input "s" = false ->
  mentions "q"%char input = false /\ mentions "s"%char input = false.
Proof.
  intros Hlen Eq Es.
  destruct input as [|a [|b rest]]; [split; reflexivity| |cbn in Hlen; lia].
  cbn [mentions]. rewrite !orb_false_r. split.
  - destruct (Ascii.eqb_spec a "q"%char) as [-> | _];
      [discriminate Eq | reflexivity].
  - destruct (Ascii.eqb_spec a "s"%char) as [-> | _];
      [discriminate Es | reflexivity].
Qed.

(** Inputs of single characters never bring the characters [q] and [s]
    into the buffer. *)
Lemma step_reserved this e :
  single_key e = true ->
  mentions "q"%char (buffer this) = false /\
  mentions "s"%char (buffer this) = false ->
  mentions "q"%char (buffer (snd (step this e))) = false /\
  mentions "s"%char (buffer (snd (step this e))) = false.
Proof.
  intros Hs H. destruct e as [shown cc input escape|]; cbn [step snd].
  - cbn [single_key] in Hs. apply Nat.leb_le in Hs. unfold useInput.
    destruct (escape || String.eqb input "q") eqn:Eq; [exact H|].
    destruct (String.eqb input "s") eqn:Es; [exact H|].
    apply orb_false_iff in Eq. destruct Eq as [_ Eq].
    pose proof (single_not_reserved input Hs Eq Es) as Hin.
    assert (Hadd : mentions "q"%char (buffer (addKey input this)) = false /\
                   mentions "s"%char (buffer (addKey input this)) = false).
    { unfold addKey, _resetTimer. cbn [buffer]. rewrite !mentions_append.
      destruct H as [-> ->], Hin as [-> ->]. split; reflexivity. }
    destruct shown, escape, cc as [keys|]; cbn [snd]; try exact H;
      destruct (matches (addKey input this) keys); cbn [snd];
      try exact Hadd; split; reflexivity.
  - unfold timer_fires. destruct (timer this); [split; reflexivity | exact H].
Qed.

Lemma run_reserved events : forall this,
  forallb single_key events = true ->
  mentions "q"%char (buffer this) = false /\ mentions "s"%char (buffer this) = false ->
  mentions "q"%char (buffer (snd (run this events))) = false /\
  mentions "s"%char (buffer (snd (run this events))) = false.
Proof.
  induction events as [|e events IH]; intros this Hs H; [exact H|].
  cbn [forallb] in Hs. apply andb_prop in Hs. destruct Hs as [He Hes].
  cbn [run]. pose proof (step_reserved this e He H) as H1.
  destruct (step this e) as [r this1]. cbn [snd] in H1.
  specialize (IH this1 Hes H1).
  destruct (run this1 events) as [rs this2]. exact IH.
Qed.

(** X22.  Typing the keys of the current command on the game screen,
    input by input, into a new buffer, with inputs that are not empty
    and are neither [q] nor [s]: before the last input nothing is
    answered, the buffer holds what was typed and is a partial match of
    the keys, not a match, and a time-out is pending; the last input is
    answered as correct and leaves the buffer as new. *)
Theorem typing_the_keys (timeout : Z) (pre post : list string) :
  pre <> [] ->
  forallb playable (pre ++ post)%list = true ->
  let keys := typed (pre ++ post)%list in
  let (reactions, b) := run (new_InputBuffer timeout) (typing keys pre) in
  match post with
  | [] =>
      reactions = (repeat NoReaction (List.length pre - 1) ++ [Answer])%list /\
      b = new_InputBuffer timeout
  | _ :: _ =>
      reactions = repeat NoReaction (List.length pre) /\
      get b = typed pre /\
      isPartialMatch b keys = true /\
      matches b keys = false /\
      timer b = true
  end.
Proof.
  intros Hpre Hne. cbv zeta.
  rewrite forallb_app in Hne. apply andb_prop in Hne. destruct Hne as [Hne1 Hne2].
  destruct post as [|p post].
  - rewrite app_nil_r.
    destruct (snoc_cases pre) as [-> | [pre' [last ->]]]; [congruence|].
    rewrite forallb_app in Hne1. apply andb_prop in Hne1.
    destruct Hne1 as [Hpre' Hlast]. cbn [forallb] in Hlast.
    rewrite andb_true_r in Hlast.
    unfold typing. rewrite map_app, run_app.
    fold (typing (typed (pre' ++ [last])) pre').
    pose proof (playable_spec last Hlast) as [Hlen _].
    rewrite (run_partial (typed (pre' ++ [last])) pre' (new_InputBuffer timeout) last).
    + cbn [fst snd map run step].
      rewrite (useInput_playable _ last _ Hlast).
      assert (E : buffer (match pre' with
                          | [] => new_InputBuffer timeout
                          | _ :: _ =>
                              {| buffer := buffer (new_InputBuffer timeout) ++ typed pre';
                                 timeout := KeyParser.timeout (new_InputBuffer timeout);
                                 timer := true |}
                          end) ++ last = typed (pre' ++ [last])).
      { rewrite typed_app. cbn [typed]. rewrite append_nil_r.
        destruct pre'; reflexivity. }
      rewrite E, String.eqb_refl.
      rewrite length_app. cbn [List.length].
      replace (List.length pre' + 1 - 1) with (List.length pre') by lia.
      split; [reflexivity|].
      destruct pre'; reflexivity.
    + exact Hpre'.
    + exact Hlen.
    + rewrite typed_app. cbn. rewrite append_nil_r. reflexivity.
  - assert (Hrest : 0 < String.length (typed (p :: post)))
      by (apply typed_length; [discriminate | exact Hne2]).
    assert (Hlen : 0 < String.length (typed pre))
      by (apply typed_length; assumption).
    rewrite (run_partial (typed (pre ++ p :: post)) pre (new_InputBuffer timeout)
                         (typed (p :: post)) Hne1 Hrest).
    2:{ rewrite typed_app. reflexivity. }
    destruct pre as [|x pre']; [congruence|].
    cbn [new_InputBuffer buffer KeyParser.timeout]. unfold get, isPartialMatch, matches.
    cbn [buffer timer]. change (EmptyString ++ typed (x :: pre')) with (typed (x :: pre')).
    split; [reflexivity|]. split; [reflexivity|].
    rewrite typed_app, prefix_append, length_append.
    split; [|split; [|reflexivity]].
    + apply andb_true_intro. split; [apply andb_true_intro; split|].
      * apply Nat.ltb_lt. exact Hlen.
      * reflexivity.
      * apply Nat.ltb_lt. lia.
    + apply String.eqb_neq. intros E.
      apply (f_equal String.length) in E. rewrite length_append in E. lia.
Qed.

Lemma typing_the_keys_witness :
  let keys := typed (["d"] ++ ["i"; "w"])%list in
  let (reactions, b) := run (new_InputBuffer 2000) (typing keys ["d"]) in
  reactions = repeat NoReaction (List.length ["d"]) /\
  get b = typed ["d"] /\
  isPartialMatch b keys = true /\
  matches b keys = false /\
  timer b = true.
Proof.
  apply (typing_the_keys 2000 ["d"] ["i"; "w"]).
  - discriminate.
  - reflexivity.
Defined.

(** X23.  A wrong input blocks the command until the buffer is cleared:
    once the buffer is not a beginning of the keys of the current
    command, no further input answers the command, whatever is typed,
    and the buffer stays neither a match nor a partial match.  A
    time-out is then pending, and it makes the buffer new again when it
    fires. *)
Theorem typo_blocks_input (keys : string) (timeout : Z) (history : list event)
    (inputs : list (screen * string * bool)) :
  String.prefix (buffer (snd (run (new_InputBuffer timeout) history))) keys
  = false ->
  let b := snd (run (new_InputBuffer timeout) history) in
  let further :=
    map (fun i => Key (fst (fst i)) (Some keys) (snd (fst i)) (snd i)) inputs in
  let (reactions, b') := run b further in
  timer b = true /\
  existsb is_answer reactions = false /\
  matches b' keys = false /\
  isPartialMatch b' keys = false /\
  timer b' = true /\
  timer_fires b' = new_InputBuffer timeout.
Proof.
  intros Hp. cbv zeta.
  set (b := snd (run (new_InputBuffer timeout) history)) in *.
  set (further := map _ inputs).
  assert (Ht : timer b = true).
  { destruct (run_pending history (new_InputBuffer timeout)
                (or_introl eq_refl)) as [H | H]; [|exact H].
    fold b in H. rewrite H in Hp. destruct keys; discriminate Hp. }
  assert (Hd : forallb (during keys) further = true).
  { unfold further. apply forallb_forall. intros e He.
    apply in_map_iff in He. destruct He as [i [<- _]].
    cbn. apply String.eqb_refl. }
  assert (Hk : forallb (fun e => match e with TimerFires => false | _ => true end)
                       further = true).
  { unfold further. apply forallb_forall. intros e He.
    apply in_map_iff in He. destruct He as [i [<- _]]. reflexivity. }
  destruct (run_blocked keys further b Hd Hk Hp Ht) as [Ha [Hp' Ht']].
  pose proof (run_timeout further b) as Hto1.
  pose proof (run_timeout history (new_InputBuffer timeout)) as Hto2.
  fold b in Hto2. cbn [KeyParser.timeout new_InputBuffer] in Hto2.
  destruct (run b further) as [reactions b'].
  cbn [fst snd] in *.
  split; [exact Ht|]. split; [exact Ha|]. split; [|split; [|split]].
  - unfold matches. apply String.eqb_neq. intros E.
    rewrite E, prefix_refl in Hp'. discriminate.
  - unfold isPartialMatch. rewrite Hp', andb_false_r. reflexivity.
  - exact Ht'.
  - unfold timer_fires. rewrite Ht'. unfold clear, new_InputBuffer.
    rewrite Hto1, Hto2. reflexivity.
Qed.

Lemma typo_blocks_input_witness :
  let b := snd (run (new_InputBuffer 2000) (typing "dd" ["d"; "x"])) in
  let further :=
    map (fun i => Key (fst (fst i)) (Some "dd") (snd (fst i)) (snd i))
        [(GameScreen, "d", false); (GameScreen, "d", false)] in
  let (reactions, b') := run b further in
  timer b = true /\
  existsb is_answer reactions = false /\
  matches b' "dd" = false /\
  isPartialMatch b' "dd" = false /\
  timer b' = true /\
  timer_fires b' = new_InputBuffer 2000.
Proof.
  apply (typo_blocks_input "dd" 2000 (typing "dd" ["d"; "x"])
           [(GameScreen, "d", false); (GameScreen, "d", false)]).
  reflexivity.
Defined.

(** X24.  The handler answers the inputs [q] and [s] itself: [q] and
    the escape key call [exit()], [s] shows the statistics, and neither
    reaches the buffer.  So in a game played with inputs of single
    characters, a command whose keys have the character [q] or [s] is
    never answered as correct, on whatever screen and after whatever
    history. *)
Theorem reserved_inputs (timeout : Z) (history : list event) (shown : screen)
    (keys input : string) (escape : bool) :
  forallb single_key history = true ->
  (String.length input <= 1)%nat ->
  mentions "q"%char keys || mentions "s"%char keys = true ->
  let b := snd (run (new_InputBuffer timeout) history) in
  is_answer (fst (useInput shown (Some keys) input escape b)) = false /\
  useInput shown (Some keys) "q" escape b = (Exit, b) /\
  useInput shown (Some keys) input true b = (Exit, b) /\
  useInput shown (Some keys) "s" false b = (SetScreen StatsScreen, b).
Proof.
  intros Hh Hlen Hkeys. cbv zeta.
  set (b := snd (run (new_InputBuffer timeout) history)).
  assert (Hexit : forall i, useInput shown (Some keys) i true b = (Exit, b))
    by reflexivity.
  split; [|split; [|split]].
  - pose proof (run_reserved history (new_InputBuffer timeout) Hh
                  (conj eq_refl eq_refl)) as Hb.
    fold b in Hb.
    unfold useInput.
    destruct (escape || String.eqb input "q") eqn:Eq; [reflexivity|].
    destruct (String.eqb input "s") eqn:Es; [reflexivity|].
    apply orb_false_iff in Eq. destruct Eq as [_ Eq].
    pose proof (single_not_reserved input Hlen Eq Es) as Hin.
    assert (Hm : matches (addKey input b) keys = false).
    { unfold matches, addKey, _resetTimer. cbn [buffer].
      apply String.eqb_neq. intros E. rewrite <- E in Hkeys.
      rewrite !mentions_append in Hkeys.
      destruct Hb as [Hb1 Hb2], Hin as [Hi1 Hi2].
      rewrite Hb1, Hb2, Hi1, Hi2 in Hkeys. discriminate Hkeys. }
    destruct shown, escape; try reflexivity; rewrite Hm; reflexivity.
  - unfold useInput. rewrite orb_true_r. reflexivity.
  - apply Hexit.
  - reflexivity.
Qed.

Lemma reserved_inputs_witness :
  let b := snd (run (new_InputBuffer 2000)
                    (typing "C-b s" ["C"; "-"; "b"; " "])) in
  is_answer (fst (useInput GameScreen (Some "C-b s") "s" false b)) = false /\
  useInput GameScreen (Some "C-b s") "q" false b = (Exit, b) /\
  useInput GameScreen (Some "C-b s") "s" true b = (Exit, b) /\
  useInput GameScreen (Some "C-b s") "s" false b = (SetScreen StatsScreen, b).
Proof.
  apply (reserved_inputs 2000 (typing "C-b s" ["C"; "-"; "b"; " "])
           GameScreen "C-b s" "s" false).
  - reflexivity.
  - cbn. lia.
  - reflexivity.
Defined.

End InputBufferProperties.

(* ===================================================================== *)
(** * Properties of the saved progress *)
(* ===================================================================== *)

Section StorageProperties.

Import Storage.
Local Open Scope string_scope.

(** What a caller may rely on in a structure that [_validateProgress]
    accepts. *)
Lemma _validateProgress_shape (progress : json) :
  _validateProgress progress = true ->
  exists props unlocked stats,
    progress = JObject props /\
    get_field progress "unlockedGroups" = JArray unlocked /\
    (isArray (get_field progress "commandStats") = true \/
     exists stats', get_field progress "commandStats" = JObject stats') /\
    get_field progress "globalStats" = JObject stats /\
    forallb (fun field => has_field field (JObject stats)) statsRequired = true.
Proof.
  unfold _validateProgress. intros H.
  destruct (negb (truthy progress) || negb (typeof_object progress)) eqn:E1;
    [discriminate|].
  destruct (forallb (fun field => has_field field progress) required) eqn:E2;
    [|discriminate].
  cbn [negb] in H.
  destruct (get_field progress "unlockedGroups") as [| | | | |unlocked|] eqn:Eu;
    try discriminate.
  cbn [isArray negb] in H.
  destruct (get_field progress "commandStats") as [| | | | |cs|cs] eqn:Ec;
    try discriminate;
  destruct (get_field progress "globalStats") as [| | | | |gs|gs] eqn:Eg;
    try discriminate; cbn in H.
  all: destruct progress as [| | | | |items|props]; try discriminate.
  all: try (destruct (lookup "totalCommands" gs); try discriminate;
            destruct (lookup "totalTime" gs); try discriminate;
            destruct (lookup "bestCombo" gs); try discriminate;
            destruct (lookup "totalScore" gs); discriminate).
  all: exists props, unlocked, gs; repeat split; auto.
  all: try (right; exists cs; reflexivity).
  all: cbn;
    match type of H with
    | (if negb ?b then false else true) = true =>
        destruct b; [reflexivity | discriminate H]
    end.
Qed.

(** X25.  Whatever the configuration holds, and also when reading it
    fails, [loadProgress] returns a structure that [_validateProgress]
    accepts: the stored one when that is acceptable, and otherwise the
    default progress of the pack.  In the result [unlockedGroups] is an
    array, [commandStats] is an object or an array, and [globalStats] is
    an object with the four totals. *)
Theorem loadProgress_valid (packId : json) (stored : config_get) :
  let progress := loadProgress packId stored in
  _validateProgress progress = true /\
  match stored with
  | Got saved =>
      if _validateProgress saved then progress = saved
      else progress = _getDefaultProgress packId
  | Raised => progress = _getDefaultProgress packId
  end /\
  exists props unlocked stats,
    progress = JObject props /\
    get_field progress "unlockedGroups" = JArray unlocked /\
    (isArray (get_field progress "commandStats") = true \/
     exists stats', get_field progress "commandStats" = JObject stats') /\
    get_field progress "globalStats" = JObject stats /\
    forallb (fun field => has_field field (JObject stats)) statsRequired = true.
Proof.
  cbv zeta.
  assert (Hdefault : _validateProgress (_getDefaultProgress packId) = true)
    by reflexivity.
  assert (Hvalid : _validateProgress (loadProgress packId stored) = true).
  { destruct stored as [|saved]; cbn [loadProgress]; [exact Hdefault|].
    destruct (truthy saved && _validateProgress saved) eqn:E; [|exact Hdefault].
    apply andb_prop in E. tauto. }
  split; [exact Hvalid|]. split; [|apply _validateProgress_shape; exact Hvalid].
  destruct stored as [|saved]; cbn [loadProgress]; [reflexivity|].
  destruct (_validateProgress saved) eqn:E.
  - destruct (_validateProgress_shape saved E) as [props [_ [_ [-> _]]]].
    reflexivity.
  - rewrite andb_false_r. reflexivity.
Qed.

End StorageProperties.
